(** * google-discovery-mcp: the code-generation engine of package [discovery]

    A shallow embedding of the generator of package [discovery]
    ([GenerateMCPTools] and its helpers, in the version that emits schema
    types) and of the document model, with the properties of type resolution,
    schema dependency collection, ordering, description cleaning and of the
    generation entry point.

    Go strings are byte sequences: they are modelled by [string] (a list of
    8-bit [ascii]).  A Go map that the code only ranges over (schema
    properties, method parameters, resources) is modelled by the list of its
    entries in the order in which one run enumerates them; a map that is
    looked up by key ([allSchemas], [AllMethods]) is a [gmap], and the
    [needed] set of the collector is a [gset]. *)

From Stdlib Require Import Strings.String Strings.Ascii NArith Lia.
From stdpp Require Import base strings list gmap sorting.

(** ** Byte-level models of the [strings], [unicode] and [utf8] functions used *)

Module GoStrings.

Local Open Scope N_scope.

Definition byte (c : ascii) : N := N_of_ascii c.

Definition inRange (lo hi b : N) : bool := (lo <=? b) && (b <=? hi).

(** [strings.ReplaceAll s old new] for a non-empty [old]: non-overlapping
    occurrences are replaced from the left.  [skip] counts the bytes of an
    occurrence that are still to be dropped. *)
Fixpoint replaceFrom (old new : string) (skip : nat) (s : string) : string :=
  match s with
  | EmptyString => EmptyString
  | String c r =>
      match skip with
      | S k => replaceFrom old new k r
      | O =>
          if String.prefix old s
          then new +:+ replaceFrom old new (Nat.pred (String.length old)) r
          else String c (replaceFrom old new O r)
      end
  end.

Definition ReplaceAll (s old new : string) : string := replaceFrom old new O s.

(** [strings.Contains s sub] for a non-empty [sub]. *)
Fixpoint Contains (s sub : string) : bool :=
  match s with
  | EmptyString => false
  | String _ r => String.prefix sub s || Contains r sub
  end.

(** [unicode.IsSpace] on the UTF-8 encoding: the six ASCII white space bytes,
    U+0085 and U+00A0 (two bytes), and U+1680, U+2000..U+200A, U+2028, U+2029,
    U+202F, U+205F and U+3000 (three bytes).  An overlong or truncated
    sequence decodes to U+FFFD, which is not white space, and a lead byte is
    never inside another rune, so matching the bytes is exact. *)
Definition isSpace1 (b0 : N) : bool := inRange 9 13 b0 || (b0 =? 32).

Definition isSpace2 (b0 b1 : N) : bool :=
  (b0 =? 194) && ((b1 =? 133) || (b1 =? 160)).

Definition isSpace3 (b0 b1 b2 : N) : bool :=
  ((b0 =? 225) && (b1 =? 154) && (b2 =? 128))
  || ((b0 =? 226) && (b1 =? 128)
      && (inRange 128 138 b2 || (b2 =? 168) || (b2 =? 169) || (b2 =? 175)))
  || ((b0 =? 226) && (b1 =? 129) && (b2 =? 159))
  || ((b0 =? 227) && (b1 =? 128) && (b2 =? 128)).

(** Width of the white space rune at the head of [s], [0] when there is none. *)
Definition spaceLen (s : string) : nat :=
  match s with
  | EmptyString => O
  | String c0 r0 =>
      if isSpace1 (byte c0) then 1%nat else
      match r0 with
      | EmptyString => O
      | String c1 r1 =>
          if isSpace2 (byte c0) (byte c1) then 2%nat else
          match r1 with
          | EmptyString => O
          | String c2 _ =>
              if isSpace3 (byte c0) (byte c1) (byte c2) then 3%nat else O
          end
      end
  end.

(** The same for the rune at the end of a string, given reversed. *)
Definition spaceLenRev (t : string) : nat :=
  match t with
  | EmptyString => O
  | String c0 r0 =>
      if isSpace1 (byte c0) then 1%nat else
      match r0 with
      | EmptyString => O
      | String c1 r1 =>
          if isSpace2 (byte c1) (byte c0) then 2%nat else
          match r1 with
          | EmptyString => O
          | String c2 _ =>
              if isSpace3 (byte c2) (byte c1) (byte c0) then 3%nat else O
          end
      end
  end.

(** Drop white space runes from the head, as [strings.TrimLeftFunc] with
    [unicode.IsSpace] does; [w] is the width function, [skip] the bytes of the
    current rune still to be dropped. *)
Fixpoint dropWhile (w : string -> nat) (skip : nat) (s : string) : string :=
  match s with
  | EmptyString => EmptyString
  | String _ r =>
      match skip with
      | S k => dropWhile w k r
      | O => match w s with
             | O => s
             | S k => dropWhile w k r
             end
      end
  end.

Definition TrimLeft (s : string) : string := dropWhile spaceLen O s.

Definition TrimRight (s : string) : string :=
  String.rev (dropWhile spaceLenRev O (String.rev s)).

(** [strings.TrimSpace]: both of its ASCII fast paths and the Unicode fall
    back trim the head first and then the end of what is left. *)
Definition TrimSpace (s : string) : string := TrimRight (TrimLeft s).

(** [strings.Fields]: the maximal runs of bytes between white space runes.
    [cur] is the word being read, reversed. *)
Fixpoint fieldsGo (cur : string) (skip : nat) (s : string) : list string :=
  let flush := match cur with
               | EmptyString => []
               | _ => [String.rev cur]
               end in
  match s with
  | EmptyString => flush
  | String c r =>
      match skip with
      | S k => fieldsGo EmptyString k r
      | O => match spaceLen s with
             | O => fieldsGo (String c cur) O r
             | S k => flush ++ fieldsGo EmptyString k r
             end
      end
  end.

Definition Fields (s : string) : list string := fieldsGo EmptyString O s.

(** [strings.Join]. *)
Fixpoint Join (l : list string) (sep : string) : string :=
  match l with
  | [] => EmptyString
  | [x] => x
  | x :: r => x +:+ sep +:+ Join r sep
  end.

Definition upperByte (c : ascii) : ascii :=
  if inRange 97 122 (byte c) then ascii_of_N (byte c - 32) else c.

(** The encoding of U+FFFD, [utf8.RuneError]. *)
Definition runeError : string :=
  String (ascii_of_N 239) (String (ascii_of_N 191) (String (ascii_of_N 189) EmptyString)).

(** [strings.ToUpper] of the one-byte string [w[:1]]: an ASCII byte is
    upper-cased; a byte from [0x80] on is not valid UTF-8 on its own and
    [strings.Map] writes U+FFFD for it. *)
Definition ToUpper1 (c : ascii) : string :=
  if byte c <? 128 then String (upperByte c) EmptyString else runeError.

Definition isCont (b : N) : bool := inRange 128 191 b.

(** Width of the valid UTF-8 sequence at the head of [s] as
    [utf8.DecodeRuneInString] accepts it, [0] when the head is invalid. *)
Definition runeLen (s : string) : nat :=
  match s with
  | EmptyString => O
  | String c0 r0 =>
      let b0 := byte c0 in
      if b0 <? 128 then 1%nat else
      match r0 with
      | EmptyString => O
      | String c1 r1 =>
          let b1 := byte c1 in
          if inRange 194 223 b0 then (if isCont b1 then 2%nat else O) else
          match r1 with
          | EmptyString => O
          | String c2 r2 =>
              let b2 := byte c2 in
              let lo1 := if b0 =? 224 then 160 else if b0 =? 240 then 144 else 128 in
              let hi1 := if b0 =? 237 then 159 else if b0 =? 244 then 143 else 191 in
              if inRange 224 239 b0
              then (if inRange lo1 hi1 b1 && isCont b2 then 3%nat else O)
              else
                match r2 with
                | EmptyString => O
                | String c3 _ =>
                    if inRange 240 244 b0 && inRange lo1 hi1 b1
                       && isCont b2 && isCont (byte c3)
                    then 4%nat else O
                end
          end
      end
  end.

(** [string([]rune(s))]: valid runes are kept, every other byte becomes
    U+FFFD.  [keep] counts the bytes of a valid rune still to be copied. *)
Fixpoint toValidUTF8 (keep : nat) (s : string) : string :=
  match s with
  | EmptyString => EmptyString
  | String c r =>
      match keep with
      | S k => String c (toValidUTF8 k r)
      | O => match runeLen s with
             | O => runeError +:+ toValidUTF8 O r
             | S k => String c (toValidUTF8 k r)
             end
      end
  end.

End GoStrings.

Import GoStrings.

Local Notation "a =s b" := (String.eqb a b) (at level 70, no associativity).

(** ** The document model

    Only the fields that the generator reads are kept.  A nil pointer is
    [None]; a [*SchemaRef] is the option of its [Ref] string. *)

(** Go's [Parameter]; the name is a reserved word here. *)
Record Param := mkParam {
  Param_Type : string;
  Param_Description : string;
  Param_Required : bool;
  Param_Repeated : bool;
  Param_Default : string;
  Param_Enum : list string;
  Param_Format : string
}.

#[warnings="-register-all"] Inductive Schema := mkSchema {
  Schema_Type : string;
  Schema_Format : string;
  Schema_Description : string;
  Schema_Properties : list (string * Schema);
  Schema_Items : option Schema;
  Schema_AdditionalProperties : option Schema;
  Schema_Ref : string;
  Schema_Default : string;
  Schema_Enum : list string;
  Schema_Required : bool;
  Schema_ReadOnly : bool;
  Schema_Annotations : option (list string)
}.

Record Method := mkMethod {
  Method_Description : string;
  Method_Parameters : list (string * Param);
  Method_ParameterOrder : list string;
  Method_Request : option string;
  Method_Response : option string
}.

#[warnings="-register-all"] Inductive Resource := mkResource {
  Resource_Methods : list (string * Method);
  Resource_Resources : list (string * Resource)
}.

Record Document := mkDocument {
  Doc_Name : string;
  Doc_Version : string;
  Doc_Title : string;
  Doc_Schemas : gmap string Schema;
  Doc_Resources : list (string * Resource);
  Doc_Methods : list (string * Method)
}.

(** ** Sorting

    [sort.Slice] and [sort.Strings] are given a [less] function.  They are
    modelled by insertion with that very function; [sort_unique] below shows
    that for the orders used here every sorting algorithm returns this list. *)

Section Sorting.
Context {A : Type} (less : A -> A -> bool).

Fixpoint insertBy (x : A) (l : list A) : list A :=
  match l with
  | [] => [x]
  | y :: r => if less y x then y :: insertBy x r else x :: l
  end.

Fixpoint sortBy (l : list A) : list A :=
  match l with
  | [] => []
  | x :: r => insertBy x (sortBy r)
  end.
End Sorting.

(** [sort.Strings]: ascending in the byte order of Go's [<] on strings. *)
Definition sortStrings (l : list string) : list string := sortBy String.ltb l.

(** ** Helper functions of the generator *)

Definition upperWord (w : string) : string :=
  match w with
  | EmptyString => EmptyString
  | String c r => ToUpper1 c +:+ r
  end.

(** The last step of [exportedName] goes through [[]rune]: invalid bytes
    become U+FFFD and the first rune is upper-cased.  The first byte is by
    then an upper-cased ASCII byte or the lead byte of U+FFFD, which
    [unicode.ToUpper] leaves alone, so only an ASCII first byte is mapped. *)
Definition upperFirstRune (s : string) : string :=
  match toValidUTF8 O s with
  | EmptyString => EmptyString
  | String c r => String (if (byte c <? 128)%N then upperByte c else c) r
  end.

Definition exportedName (s : string) : string :=
  if s =s "" then ""
  else
    let s := ReplaceAll s "_" " " in
    let s := ReplaceAll s "-" " " in
    let words := upperWord <$> Fields s in
    let result := Join words "" in
    let result := ReplaceAll result "Id" "ID" in
    let result := ReplaceAll result "Url" "URL" in
    let result := ReplaceAll result "Http" "HTTP" in
    let result := ReplaceAll result "Api" "API" in
    if result =s "" then result else upperFirstRune result.

Definition scalarGoType (typ typeFormat : string) (optional : bool) : string :=
  if typ =s "string" then "string"
  else if typ =s "integer" then
    if typeFormat =s "int32" then "int32"
    else if typeFormat =s "uint32" then "uint32"
    else if typeFormat =s "int64" then "int64"
    else if typeFormat =s "uint64" then "uint64"
    else "int64"
  else if typ =s "number" then
    if typeFormat =s "float" then "float32"
    else if typeFormat =s "double" then "float64"
    else "float64"
  else if typ =s "boolean" then
    if optional then "*bool" else "bool"
  else if typ =s "any" then "any"
  else "any".

(** The results of [scalarGoType]. *)
Definition scalarTypeNames : list string :=
  ["string"; "int32"; "uint32"; "int64"; "uint64"; "float32"; "float64";
   "bool"; "*bool"; "any"].

Definition paramGoType (p : Param) : string :=
  let optional := negb (Param_Required p) in
  if Param_Repeated p
  then "[]" +:+ scalarGoType (Param_Type p) (Param_Format p) false
  else scalarGoType (Param_Type p) (Param_Format p) optional.

Fixpoint indexOfFrom (i : Z) (slice : list string) (s : string) : Z :=
  match slice with
  | [] => (-1)%Z
  | v :: r => if v =s s then i else indexOfFrom (i + 1)%Z r s
  end.

Definition indexOf (slice : list string) (s : string) : Z := indexOfFrom 0%Z slice s.

(** ** Wrappers used by the template *)

Record PropertyInfo := mkPropertyInfo {
  Prop_Name : string;
  Prop_Property : Schema;
  Prop_Required : bool;
  Prop_AllSchemas : gmap string Schema
}.

Record ParamInfo := mkParamInfo {
  PI_Name : string;
  PI_Param : Param
}.

Fixpoint resolveType (AllSchemas : gmap string Schema) (schema : Schema)
    (optional : bool) : string :=
  if negb (Schema_Ref schema =s "") then
    let refType := exportedName (Schema_Ref schema) in
    match AllSchemas !! Schema_Ref schema with
    | Some refSchema =>
        if negb (Schema_Type refSchema =s "")
           && negb (Schema_Type refSchema =s "object")
           && negb (Schema_Type refSchema =s "array")
        then scalarGoType (Schema_Type refSchema) (Schema_Format refSchema) optional
        else "*" +:+ refType
    | None => "*" +:+ refType
    end
  else if Schema_Type schema =s "array" then
    match Schema_Items schema with
    | Some items => "[]" +:+ resolveType AllSchemas items false
    | None => "[]any"
    end
  else if Schema_Type schema =s "object" then
    match Schema_AdditionalProperties schema with
    | Some ap => "map[string]" +:+ resolveType AllSchemas ap false
    | None => "map[string]any"
    end
  else scalarGoType (Schema_Type schema) (Schema_Format schema) optional.

Definition PropertyInfo_GoType (p : PropertyInfo) : string :=
  resolveType (Prop_AllSchemas p) (Prop_Property p) (negb (Prop_Required p)).

Definition ParamInfo_GoType (p : ParamInfo) : string := paramGoType (PI_Param p).

Definition PropertyInfo_JSONTag (p : PropertyInfo) : string :=
  if Prop_Required p then Prop_Name p else Prop_Name p +:+ ",omitempty".

Definition ParamInfo_JSONTag (p : ParamInfo) : string :=
  if Param_Required (PI_Param p) then PI_Name p else PI_Name p +:+ ",omitempty".

Record MethodInfo := mkMethodInfo {
  MI_FullName : string;
  MI_Method : Method;
  MI_Prefix : string;
  MI_StructPrefix : string
}.

Record SchemaInfo := mkSchemaInfo {
  SI_Name : string;
  SI_Schema : Schema;
  SI_AllSchemas : gmap string Schema;
  SI_RequiredSet : gset string
}.

Definition NewSchemaInfo (name : string) (schema : Schema)
    (allSchemas : gmap string Schema) : SchemaInfo :=
  let requiredSet :=
    match Schema_Annotations schema with
    | Some required => list_to_set required
    | None => ∅
    end in
  mkSchemaInfo name schema allSchemas requiredSet.

(** ** Ordering *)

(** The [less] closure of [SortedProperties]. *)
Definition propLess (pi pj : PropertyInfo) : bool :=
  if negb (eqb (Prop_Required pi) (Prop_Required pj)) then Prop_Required pi
  else String.ltb (Prop_Name pi) (Prop_Name pj).

(** The entries of [s.Schema.Properties] are appended in the order in which
    the map is ranged over, here the order of the list, and then sorted. *)
Definition SortedProperties (s : SchemaInfo) : list PropertyInfo :=
  let props :=
    (fun '(name, prop) =>
       let required := bool_decide (name ∈ SI_RequiredSet s) || Schema_Required prop in
       mkPropertyInfo name prop required (SI_AllSchemas s))
    <$> Schema_Properties (SI_Schema s) in
  sortBy propLess props.

(** The [less] closure of [SortedParams]. *)
Definition paramLess (order : list string) (pi pj : ParamInfo) : bool :=
  if negb (eqb (Param_Required (PI_Param pi)) (Param_Required (PI_Param pj)))
  then Param_Required (PI_Param pi)
  else
    let iOrder := indexOf order (PI_Name pi) in
    let jOrder := indexOf order (PI_Name pj) in
    if negb (iOrder =? jOrder)%Z then
      if (iOrder =? -1)%Z then false
      else if (jOrder =? -1)%Z then true
      else (iOrder <? jOrder)%Z
    else String.ltb (PI_Name pi) (PI_Name pj).

Definition SortedParams (m : MethodInfo) : list ParamInfo :=
  let params := (fun '(name, p) => mkParamInfo name p) <$> Method_Parameters (MI_Method m) in
  sortBy (paramLess (Method_ParameterOrder (MI_Method m))) params.

(** ** The method collector *)

Definition putMethods (prefix : string) (l : list (string * Method))
    (methods : gmap string Method) : gmap string Method :=
  foldl (fun acc '(methodName, m) => <[prefix +:+ methodName := m]> acc) methods l.

Fixpoint collectMethods (prefix : string) (r : Resource)
    (methods : gmap string Method) : gmap string Method :=
  let methods := putMethods (prefix +:+ ".") (Resource_Methods r) methods in
  (fix subs (l : list (string * Resource)) (methods : gmap string Method) :=
     match l with
     | [] => methods
     | (subName, subResource) :: l' =>
         subs l' (collectMethods (prefix +:+ "." +:+ subName) subResource methods)
     end) (Resource_Resources r) methods.

Definition AllMethods (d : Document) : gmap string Method :=
  let methods := putMethods "" (Doc_Methods d) ∅ in
  foldl (fun acc '(resourceName, resource) => collectMethods resourceName resource acc)
        methods (Doc_Resources d).

(** The keys are appended in the order [names], one enumeration of the map,
    and then sorted. *)
Definition sortedKeys (names : list string) : list string := sortStrings names.

Definition SortedMethodNames (d : Document) : list string :=
  sortedKeys (map_to_list (AllMethods d)).*1.

(** ** The schema dependency collector *)

(** [collectSchemaRefsFromSchema], with the call back into [collectSchemaRefs]
    as [rec].  The [needed] map is mutated in place by the source; here it is
    passed on from call to call.  [None] stands for running out of fuel. *)
Fixpoint collectFromSchema (rec : string -> gset string -> option (gset string))
    (schema : Schema) (needed : gset string) : option (gset string) :=
  needed ← (if negb (Schema_Ref schema =s "")
            then rec (Schema_Ref schema) needed else Some needed);
  needed ← (fix props (l : list (string * Schema)) (needed : gset string) :=
              match l with
              | [] => Some needed
              | (_, prop) :: l' =>
                  needed ← collectFromSchema rec prop needed; props l' needed
              end) (Schema_Properties schema) needed;
  needed ← match Schema_Items schema with
           | Some items => collectFromSchema rec items needed
           | None => Some needed
           end;
  match Schema_AdditionalProperties schema with
  | Some ap => collectFromSchema rec ap needed
  | None => Some needed
  end.

(** [collectSchemaRefs].  One unit of fuel is used each time a schema is
    entered; [collectSchemaRefs_collected] shows how much suffices. *)
Fixpoint collectSchemaRefs (fuel : nat) (schemaName : string)
    (allSchemas : gmap string Schema) (needed : gset string)
    : option (gset string) :=
  if bool_decide (schemaName ∈ needed) then Some needed
  else
    match allSchemas !! schemaName with
    | None => Some needed
    | Some schema =>
        match fuel with
        | O => None
        | S fuel' =>
            let rec := fun n s => collectSchemaRefs fuel' n allSchemas s in
            let needed := {[schemaName]} ∪ needed in
            needed ← (fix props (l : list (string * Schema)) (needed : gset string) :=
                        match l with
                        | [] => Some needed
                        | (_, prop) :: l' =>
                            needed ← collectFromSchema rec prop needed; props l' needed
                        end) (Schema_Properties schema) needed;
            needed ← match Schema_Items schema with
                     | Some items => collectFromSchema rec items needed
                     | None => Some needed
                     end;
            match Schema_AdditionalProperties schema with
            | Some ap => collectFromSchema rec ap needed
            | None => Some needed
            end
        end
    end.


(** The first loop of [collectSchemas]. *)
Fixpoint collectNeeded (fuel : nat) (methods : list MethodInfo)
    (allSchemas : gmap string Schema) (needed : gset string)
    : option (gset string) :=
  match methods with
  | [] => Some needed
  | m :: ms =>
      needed ← match Method_Request (MI_Method m) with
               | Some ref => if negb (ref =s "")
                             then collectSchemaRefs fuel ref allSchemas needed
                             else Some needed
               | None => Some needed
               end;
      needed ← match Method_Response (MI_Method m) with
               | Some ref => if negb (ref =s "")
                             then collectSchemaRefs fuel ref allSchemas needed
                             else Some needed
               | None => Some needed
               end;
      collectNeeded fuel ms allSchemas needed
  end.

(** The rest of [collectSchemas], from the order [names] in which the keys of
    [needed] are ranged over. *)
Definition schemaInfos (names : list string) (allSchemas : gmap string Schema)
    : list SchemaInfo :=
  omap (fun name => (fun schema => NewSchemaInfo name schema allSchemas)
                      <$> allSchemas !! name)
       (sortStrings names).

(** [collectSchemas]; a schema is entered at most once for each key of
    [allSchemas], which bounds the fuel. *)
Definition collectSchemas (methods : list MethodInfo)
    (allSchemas : gmap string Schema) : option (list SchemaInfo) :=
  needed ← collectNeeded (size allSchemas) methods allSchemas ∅;
  Some (schemaInfos (elements needed) allSchemas).

(** ** Descriptions *)

Definition newline : string := String (ascii_of_N 10) EmptyString.
Definition dquote : string := String (ascii_of_N 34) EmptyString.
Definition backtick : string := String (ascii_of_N 96) EmptyString.

(** The loop of [cleanDescription]; [None] stands for running out of fuel. *)
Fixpoint collapseSpaces (fuel : nat) (desc : string) : option string :=
  if Contains desc "  " then
    match fuel with
    | O => None
    | S fuel' => collapseSpaces fuel' (ReplaceAll desc "  " " ")
    end
  else Some desc.

(** What [cleanDescription] does before its loop. *)
Definition normalizeDescription (desc : string) : string :=
  let desc := ReplaceAll desc newline " " in
  let desc := ReplaceAll desc dquote "'" in
  let desc := ReplaceAll desc backtick "'" in
  TrimSpace desc.

(** [cleanDescription]; every turn of the loop shortens the string, which
    bounds the fuel ([collapseSpaces_returns]). *)
Definition cleanDescription (desc : string) : option string :=
  let desc := normalizeDescription desc in
  collapseSpaces (String.length desc) desc.

(** The slice [desc[:n]]. *)
Definition sliceTo (n : nat) (s : string) : string := String.substring 0 n s.

Definition truncateDescription (desc : string) : string :=
  if (200 <? String.length desc)%nat then sliceTo 197 desc +:+ "..." else desc.

Definition MethodInfo_Description (m : MethodInfo) : option string :=
  truncateDescription <$> cleanDescription (Method_Description (MI_Method m)).

Definition SchemaInfo_Description (s : SchemaInfo) : option string :=
  cleanDescription (Schema_Description (SI_Schema s)).

Definition MethodInfo_ToolName (m : MethodInfo) : string :=
  MI_Prefix m +:+ ReplaceAll (MI_FullName m) "." "_".

(** ** The entry point *)

Record GenerateOptions := mkGenerateOptions {
  Opt_PackageName : string;
  Opt_Methods : list string;
  Opt_Prefix : string;
  Opt_StructPrefix : string;
  Opt_GenerateSchema : bool
}.

Record TemplateData := mkTemplateData {
  TD_PackageName : string;
  TD_APIName : string;
  TD_APITitle : string;
  TD_APIVersion : string;
  TD_Methods : list MethodInfo;
  TD_Schemas : gmap string Schema;
  TD_SchemasToGen : list SchemaInfo;
  TD_AllSchemas : gmap string Schema;
  TD_GenerateSchema : bool
}.

(** The errors that [GenerateMCPTools] builds with [fmt.Errorf]. *)
Inductive GenError :=
  | MethodNotFound (name : string)
  | TemplateExecutionFailed (cause : string)
  | SyntaxErrors (cause : string).

(** The later stages of a run, recorded when they are entered. *)
Inductive Stage := CollectStage | RenderStage | FormatStage.

Record Outcome := mkOutcome {
  stages : list Stage;
  output : string;
  failure : option GenError
}.

(** The loop over [methodNames]: the first name that is not a key of
    [allMethods] ends the run. *)
Fixpoint selectMethods (allMethods : gmap string Method) (prefix structPrefix : string)
    (methodNames : list string) : GenError + list MethodInfo :=
  match methodNames with
  | [] => inr []
  | name :: rest =>
      match allMethods !! name with
      | None => inl (MethodNotFound name)
      | Some m =>
          match selectMethods allMethods prefix structPrefix rest with
          | inl e => inl e
          | inr ms => inr (mkMethodInfo name m prefix structPrefix :: ms)
          end
      end
  end.

(** The defaults that [GenerateMCPTools] writes into [opts]. *)
Definition withDefaults (doc : Document) (opts : GenerateOptions) : GenerateOptions :=
  mkGenerateOptions
    (if Opt_PackageName opts =s "" then "tools" else Opt_PackageName opts)
    (Opt_Methods opts)
    (if Opt_Prefix opts =s "" then Doc_Name doc +:+ "_" else Opt_Prefix opts)
    (if Opt_StructPrefix opts =s "" then "API" else Opt_StructPrefix opts)
    (Opt_GenerateSchema opts).

(** [methodsToGenerate], or the error of the first name that is not found. *)
Definition selectedMethods (doc : Document) (opts : GenerateOptions)
    : GenError + list MethodInfo :=
  let opts := withDefaults doc opts in
  let allMethods := AllMethods doc in
  let methodNames :=
    match Opt_Methods opts with
    | [] => SortedMethodNames doc
    | _ => Opt_Methods opts
    end in
  selectMethods allMethods (Opt_Prefix opts) (Opt_StructPrefix opts) methodNames.

(** The schema collection, entered only when [GenerateSchema] is set, and the
    template data.  [collectSchemas] always returns
    ([collectSchemas_names]), the default is never used. *)
Definition templateData (doc : Document) (opts : GenerateOptions)
    (methodsToGenerate : list MethodInfo) : list Stage * TemplateData :=
  let opts := withDefaults doc opts in
  let '(log, schemasToGen) :=
    if Opt_GenerateSchema opts
    then ([CollectStage], default [] (collectSchemas methodsToGenerate (Doc_Schemas doc)))
    else ([], []) in
  (log,
   mkTemplateData (Opt_PackageName opts) (Doc_Name doc) (Doc_Title doc)
     (Doc_Version doc) methodsToGenerate (Doc_Schemas doc)
     schemasToGen (Doc_Schemas doc) (Opt_GenerateSchema opts)).

Section Generate.
(** [codeTemplate.Execute] and [format.Source] belong to the Go library:
    each either fails with a cause or returns a text. *)
Variable Execute : TemplateData -> string + string.
Variable formatSource : string -> string + string.

Definition GenerateMCPTools (doc : Document) (opts : GenerateOptions) : Outcome :=
  match selectedMethods doc opts with
  | inl e => mkOutcome [] "" (Some e)
  | inr methodsToGenerate =>
      let '(log, data) := templateData doc opts methodsToGenerate in
      match Execute data with
      | inl cause =>
          mkOutcome (log ++ [RenderStage]) "" (Some (TemplateExecutionFailed cause))
      | inr buf =>
          match formatSource buf with
          | inl cause =>
              mkOutcome (log ++ [RenderStage; FormatStage]) buf (Some (SyntaxErrors cause))
          | inr formatted =>
              mkOutcome (log ++ [RenderStage; FormatStage]) formatted None
          end
      end
  end.
End Generate.

(** ** Reachability in the schema graph *)

(** [occurs n s]: the reference [n] is written somewhere in the schema [s]:
    as its own [$ref], or inside a property, the array items or the
    additional properties. *)
Inductive occurs (n : string) : Schema -> Prop :=
  | occurs_ref s :
      Schema_Ref s = n -> n ≠ "" -> occurs n s
  | occurs_prop s k p :
      (k, p) ∈ Schema_Properties s -> occurs n p -> occurs n s
  | occurs_items s i :
      Schema_Items s = Some i -> occurs n i -> occurs n s
  | occurs_additional s a :
      Schema_AdditionalProperties s = Some a -> occurs n a -> occurs n s.

(** [mentions s n]: the named schema [s] refers to [n] through one of its
    properties, its items or its additional properties. *)
Definition mentions (s : Schema) (n : string) : Prop :=
  (exists k p, (k, p) ∈ Schema_Properties s /\ occurs n p)
  \/ (exists i, Schema_Items s = Some i /\ occurs n i)
  \/ (exists a, Schema_AdditionalProperties s = Some a /\ occurs n a).

(** An edge of the graph: [a] is a schema of the mapping that mentions [b],
    and [b] is a key of the mapping too. *)
Definition depends (allSchemas : gmap string Schema) (a b : string) : Prop :=
  exists s, allSchemas !! a = Some s /\ mentions s b /\ is_Some (allSchemas !! b).

(** The request and response references of the selected methods. *)
Definition methodRefs (methods : list MethodInfo) : list string :=
  methods ≫= (fun m =>
    match Method_Request (MI_Method m) with
    | Some ref => if negb (ref =s "") then [ref] else []
    | None => []
    end ++
    match Method_Response (MI_Method m) with
    | Some ref => if negb (ref =s "") then [ref] else []
    | None => []
    end).

Definition reachable (allSchemas : gmap string Schema) (methods : list MethodInfo)
    (x : string) : Prop :=
  exists r, r ∈ methodRefs methods /\ is_Some (allSchemas !! r)
            /\ rtc (depends allSchemas) r x.

(** The references of a schema in the order in which
    [collectSchemaRefsFromSchema] meets them. *)
Fixpoint refsOf (s : Schema) : list string :=
  (if negb (Schema_Ref s =s "") then [Schema_Ref s] else [])
  ++ (fix props (l : list (string * Schema)) : list string :=
        match l with
        | [] => []
        | (_, p) :: l' => refsOf p ++ props l'
        end) (Schema_Properties s)
  ++ match Schema_Items s with Some i => refsOf i | None => [] end
  ++ match Schema_AdditionalProperties s with Some a => refsOf a | None => [] end.

(** The same for a named schema, whose own [$ref] [collectSchemaRefs] does
    not follow. *)
Definition innerRefs (s : Schema) : list string :=
  (Schema_Properties s ≫= (fun kp => refsOf kp.2))
  ++ match Schema_Items s with Some i => refsOf i | None => [] end
  ++ match Schema_AdditionalProperties s with Some a => refsOf a | None => [] end.

(** Visiting a list of names with the state passed along. *)
Fixpoint visitAll (rec : string -> gset string -> option (gset string))
    (l : list string) (needed : gset string) : option (gset string) :=
  match l with
  | [] => Some needed
  | n :: l' => needed ← rec n needed; visitAll rec l' needed
  end.

(** Induction on schemas through their properties, items and additional
    properties. *)
Section SchemaInduction.
Variable P : Schema -> Prop.
Hypothesis step : forall s,
  Forall (fun kp => P kp.2) (Schema_Properties s) ->
  (forall i, Schema_Items s = Some i -> P i) ->
  (forall a, Schema_AdditionalProperties s = Some a -> P a) ->
  P s.

Fixpoint Schema_nested_ind (s : Schema) : P s :=
  match s as s0 return
    (Forall (fun kp => P kp.2) (Schema_Properties s0) ->
     (forall i, Schema_Items s0 = Some i -> P i) ->
     (forall a, Schema_AdditionalProperties s0 = Some a -> P a) -> P s0) -> P s0
  with
  | mkSchema _ _ _ properties items additional _ _ _ _ _ _ =>
      fun k =>
        k ((fix props (l : list (string * Schema)) : Forall (fun kp => P kp.2) l :=
              match l with
              | [] => @List.Forall_nil _ _
              | kp :: l' => @List.Forall_cons _ _ kp l' (Schema_nested_ind kp.2) (props l')
              end) properties)
          (match items as o return forall i, o = Some i -> P i with
           | Some i0 => fun i e =>
               match e in _ = y return match y with Some z => P z | None => True end with
               | eq_refl => Schema_nested_ind i0
               end
           | None => fun i e =>
               match e in _ = y return match y with Some z => P z | None => True end with
               | eq_refl => I
               end
           end)
          (match additional as o return forall a, o = Some a -> P a with
           | Some a0 => fun a e =>
               match e in _ = y return match y with Some z => P z | None => True end with
               | eq_refl => Schema_nested_ind a0
               end
           | None => fun a e =>
               match e in _ = y return match y with Some z => P z | None => True end with
               | eq_refl => I
               end
           end)
  end (step s).
End SchemaInduction.

(** ** Example documents *)

Definition scalarSchema (typ : string) (required : bool) : Schema :=
  mkSchema typ "" "" [] None None "" "" [] required false None.

Definition refSchema (ref : string) : Schema :=
  mkSchema "" "" "" [] None None ref "" [] false false None.

Definition objectSchema (properties : list (string * Schema)) : Schema :=
  mkSchema "object" "" "" properties None None "" "" [] false false None.

Definition optionalFlag : Param := mkParam "boolean" "" false false "" [] "".

Definition repeatedFlag : Param := mkParam "boolean" "" true true "" [] "".

(** The mapping of [TestPropertyInfoGoType]. *)
Definition wrapperSchemas : gmap string Schema :=
  <["Video" := objectSchema [("id", scalarSchema "string" false)]]>
    (<["StringWrapper" := scalarSchema "string" false]> ∅).

(** The schema of [TestSchemaInfoSortedProperties]. *)
Definition testSchema : Schema :=
  mkSchema "object" "" ""
    [("zebra", scalarSchema "string" false); ("alpha", scalarSchema "string" false);
     ("required", scalarSchema "string" true); ("beta", scalarSchema "string" false)]
    None None "" "" [] false false (Some ["required"]).

(** Two optional parameters listed in [parameterOrder] against their names. *)
Definition optionalParam : Param := mkParam "string" "" false false "" [] "".

Definition reorderedMethod : MethodInfo :=
  mkMethodInfo "things.list"
    (mkMethod "" [("a", optionalParam); ("b", optionalParam)] ["b"; "a"] None None)
    "" "API".

(** ** The contract of a visit

    [collected all l N N']: visiting the names [l] from the set [N] gave
    [N'].  Nothing is lost, every name of [l] that is a key of the mapping is
    in [N'], and every name that was added is reached from a name of [l] and
    has all its dependencies in [N']. *)
Definition collected (allSchemas : gmap string Schema) (l : list string)
    (N N' : gset string) : Prop :=
  N ⊆ N'
  /\ (forall n, n ∈ l -> is_Some (allSchemas !! n) -> n ∈ N')
  /\ (forall x, x ∈ N' -> x ∉ N ->
        (exists n, n ∈ l /\ is_Some (allSchemas !! n) /\ rtc (depends allSchemas) n x)
        /\ (forall y, depends allSchemas x y -> y ∈ N')).

(** A schema that refers to itself. *)
Definition cyclicSchemas : gmap string Schema :=
  <["Node" := objectSchema [("next", refSchema "Node")]]> ∅.

Definition methodWith (request response : option string) : MethodInfo :=
  mkMethodInfo "things.get" (mkMethod "" [] [] request response) "" "API".

(** A response that is an array of a reference, a request that is a map of a
    reference, and a schema that nothing refers to. *)
Definition arrayOf (items : Schema) : Schema :=
  mkSchema "array" "" "" [] (Some items) None "" "" [] false false None.

Definition mapOf (value : Schema) : Schema :=
  mkSchema "object" "" "" [] None (Some value) "" "" [] false false None.

Definition containerSchemas : gmap string Schema :=
  <["ListResponse" := arrayOf (refSchema "Video")]>
    (<["Labels" := mapOf (refSchema "Label")]>
       (<["Video" := objectSchema [("id", scalarSchema "string" false)]]>
          (<["Label" := objectSchema []]>
             (<["Playlist" := objectSchema []]> ∅)))).

(** A document without methods, a request for a method, and library stages
    that never fail. *)
Definition emptyDocument : Document := mkDocument "test" "v1" "Test API" ∅ [] [].

Definition unknownMethodOptions : GenerateOptions :=
  mkGenerateOptions "" ["videos.list"; "nope"] "" "" true.

Definition renderNothing (data : TemplateData) : string + string := inr "".

Definition formatNothing (buf : string) : string + string := inr buf.

(** ** Vocabulary for descriptions *)

Fixpoint mapBytes (f : ascii -> ascii) (s : string) : string :=
  match s with
  | EmptyString => EmptyString
  | String c r => String (f c) (mapBytes f r)
  end.

Fixpoint allBytes (P : ascii -> bool) (s : string) : bool :=
  match s with
  | EmptyString => true
  | String c r => P c && allBytes P r
  end.

Definition isByte (n : N) (c : ascii) : bool := (byte c =? n)%N.

(** What the three replacements of [cleanDescription] do to one byte: a line
    feed becomes a space, a double quote and a back quote an apostrophe. *)
Definition cleanByte (c : ascii) : ascii :=
  if isByte 10 c then ascii_of_N 32
  else if isByte 34 c || isByte 96 c then ascii_of_N 39
  else c.

(** The bytes that a cleaned description is free of. *)
Definition plainByte (c : ascii) : bool :=
  negb (isByte 10 c || isByte 34 c || isByte 96 c).

(** [e] is the encoding of one white space rune. *)
Definition isSpaceRune (e : string) : Prop :=
  e ≠ "" /\ spaceLen e = String.length e.

Definition tab : string := String (ascii_of_N 9) EmptyString.

(** No byte of [s] is a space. *)
Definition spaceFree (s : string) : bool := allBytes (fun c => negb (isByte 32 c)) s.

(** One document enumerated in two orders.  The resource [a.b] with the
    method [c] and the resource [a] with the sub-resource [b] and its method
    [c] both flatten to [a.b.c]. *)
Definition describedMethod (description : string) : Method :=
  mkMethod description [] [] None None.

Definition dottedResource : Resource :=
  mkResource [("c", describedMethod "first")] [].

Definition nestedResource : Resource :=
  mkResource [] [("b", mkResource [("c", describedMethod "second")] [])].

Definition collidingDocument : Document :=
  mkDocument "test" "v1" "Test API" ∅
    [("a.b", dottedResource); ("a", nestedResource)] [].

Definition collidingDocumentReordered : Document :=
  mkDocument "test" "v1" "Test API" ∅
    [("a", nestedResource); ("a.b", dottedResource)] [].

(** A template that writes the descriptions of the methods it is given. *)
Definition renderDescriptions (data : TemplateData) : string + string :=
  inr (Join ((fun m => Method_Description (MI_Method m)) <$> TD_Methods data) ",").

Definition defaultOptions : GenerateOptions := mkGenerateOptions "" [] "" "" false.

(** ** The remaining helpers of the generator and of the command *)

(** [strings.Split s sep] for a non-empty [sep]: the pieces between the
    occurrences of [sep], empty ones included.  [cur] is the piece being
    read, reversed; [skip] counts the bytes of an occurrence still to be
    dropped. *)
Fixpoint splitGo (sep : string) (cur : string) (skip : nat) (s : string) : list string :=
  match s with
  | EmptyString => [String.rev cur]
  | String c r =>
      match skip with
      | S k => splitGo sep cur k r
      | O =>
          if String.prefix sep s
          then String.rev cur :: splitGo sep EmptyString (Nat.pred (String.length sep)) r
          else splitGo sep (String c cur) O r
      end
  end.

Definition Split (s sep : string) : list string := splitGo sep EmptyString O s.

Definition MethodInfo_StructName (m : MethodInfo) : string :=
  let parts := Split (MI_FullName m) "." in
  let result := foldl (fun acc p => acc +:+ exportedName p) "" parts in
  (MI_StructPrefix m +:+ result) +:+ "Args".

Definition ParamInfo_FieldName (p : ParamInfo) : string := exportedName (PI_Name p).

Definition PropertyInfo_FieldName (p : PropertyInfo) : string := exportedName (Prop_Name p).

Definition SchemaInfo_StructName (s : SchemaInfo) : string := exportedName (SI_Name s).

(** The lines that the two [SchemaDescription] methods share: the enum
    values and the default are appended to the cleaned description. *)
Definition withEnumAndDefault (desc : string) (enum : list string) (default : string)
    : string :=
  let desc :=
    if (0 <? length enum)%nat then
      let enumStr := Join enum ", " in
      let desc := if negb (desc =s "") then desc +:+ " " else desc in
      desc +:+ ("Values: " +:+ enumStr)
    else desc in
  if negb (default =s "") then desc +:+ ((" (default: " +:+ default) +:+ ")") else desc.

Definition ParamInfo_SchemaDescription (p : ParamInfo) : option string :=
  desc ← cleanDescription (Param_Description (PI_Param p));
  Some (withEnumAndDefault desc (Param_Enum (PI_Param p)) (Param_Default (PI_Param p))).

Definition PropertyInfo_SchemaDescription (p : PropertyInfo) : option string :=
  desc ← cleanDescription (Schema_Description (Prop_Property p));
  let desc := withEnumAndDefault desc (Schema_Enum (Prop_Property p))
                (Schema_Default (Prop_Property p)) in
  Some (if Schema_ReadOnly (Prop_Property p) then desc +:+ " (read-only)" else desc).

(** The description column of the method listing of the command ([main]):
    cut to 80 bytes first, line feeds replaced afterwards. *)
Definition listingDescription (desc : string) : string :=
  let desc := if (80 <? String.length desc)%nat then sliceTo 77 desc +:+ "..." else desc in
  ReplaceAll desc newline " ".

(** ** The flattened methods of a document, as a list

    The entries in the order in which [AllMethods] writes them for the
    enumeration at hand: the top-level methods, then resource by resource its
    own methods followed by those of its sub-resources. *)
Fixpoint resourceEntries (prefix : string) (r : Resource) : list (string * Method) :=
  ((fun '(methodName, m) => ((prefix +:+ ".") +:+ methodName, m)) <$> Resource_Methods r)
  ++ (fix subs (l : list (string * Resource)) : list (string * Method) :=
        match l with
        | [] => []
        | (subName, subResource) :: l' =>
            resourceEntries (prefix +:+ "." +:+ subName) subResource ++ subs l'
        end) (Resource_Resources r).

Definition methodEntries (d : Document) : list (string * Method) :=
  ((fun '(name, m) => ("" +:+ name, m)) <$> Doc_Methods d)
  ++ (Doc_Resources d ≫= (fun '(resourceName, resource) =>
                            resourceEntries resourceName resource)).

(** Induction on resources through their sub-resources. *)
Section ResourceInduction.
Variable P : Resource -> Prop.
Hypothesis step : forall r,
  Forall (fun kr => P kr.2) (Resource_Resources r) -> P r.

Fixpoint Resource_nested_ind (r : Resource) : P r :=
  match r as r0 return
    (Forall (fun kr => P kr.2) (Resource_Resources r0) -> P r0) -> P r0
  with
  | mkResource _ resources =>
      fun k =>
        k ((fix subs (l : list (string * Resource)) : Forall (fun kr => P kr.2) l :=
              match l with
              | [] => @List.Forall_nil _ _
              | kr :: l' => @List.Forall_cons _ _ kr l' (Resource_nested_ind kr.2) (subs l')
              end) resources)
  end (step r).
End ResourceInduction.

(** Bytes that do not separate words in a name. *)
Definition wordByte (c : ascii) : bool :=
  negb (isSpace1 (byte c) || isByte 95 c || isByte 45 c).

(** Bytes of a name that is neither split nor cut: no dot either. *)
Definition segmentByte (c : ascii) : bool := wordByte c && negb (isByte 46 c).

(** A parameter and a property with an enum and a default. *)
Definition enumParam : Param :=
  mkParam "string" "The  order" false false "date" ["date"; "rating"] "".

Definition requiredParam : Param := mkParam "string" "" true false "" [] "".

(** Writing a list of entries into a map, one after the other, as the loops
    of [AllMethods] and [collectMethods] do. *)
Definition writeAll (methods : gmap string Method) (entries : list (string * Method))
    : gmap string Method :=
  foldl (fun acc kv => <[kv.1 := kv.2]> acc) methods entries.

Definition videosResource : Resource :=
  mkResource [("list", describedMethod "List videos")] [].

Definition videosDocument : Document :=
  mkDocument "youtube" "v3" "YouTube" ∅ [("videos", videosResource)] [].

(** What collapsing the runs of spaces means: a space that is followed by a
    space is dropped and every other byte is kept, so that each run of
    spaces becomes one space and nothing else changes. *)
Fixpoint squeeze (s : string) : string :=
  match s with
  | EmptyString => EmptyString
  | String c r =>
      match r with
      | EmptyString => String c EmptyString
      | String c' _ =>
          if Ascii.eqb c " " && Ascii.eqb c' " " then squeeze r
          else String c (squeeze r)
      end
  end.

(** The bytes of a string other than spaces, in their order. *)
Fixpoint withoutSpaces (s : string) : string :=
  match s with
  | EmptyString => EmptyString
  | String c r => if Ascii.eqb c " " then withoutSpaces r else String c (withoutSpaces r)
  end.

Definition headOf (s : string) : option ascii :=
  match s with
  | EmptyString => None
  | String c _ => Some c
  end.

(** * Properties *)

Local Set Warnings "-clear-no-such-hyp".

(** ** Sorting with a [less] function *)

Section SortingFacts.
Context {A : Type} (less : A -> A -> bool).

Lemma insertBy_Permutation (x : A) (l : list A) : insertBy less x l ≡ₚ x :: l.
Proof.
  induction l as [|y r IH]; simpl; [done|].
  destruct (less y x); [|done].
  rewrite IH. apply Permutation_swap.
Qed.

Lemma sortBy_Permutation (l : list A) : sortBy less l ≡ₚ l.
Proof.
  induction l as [|x r IH]; simpl; [done|].
  by rewrite insertBy_Permutation, IH.
Qed.

Lemma elem_of_sortBy (x : A) (l : list A) : x ∈ sortBy less l <-> x ∈ l.
Proof. by rewrite sortBy_Permutation. Qed.

(** [less] is a strict order, and total on entries with different keys. *)
Context {K : Type} (key : A -> K).
Hypothesis less_irrefl : forall x, less x x = false.
Hypothesis less_trans : forall x y z, less x y = true -> less y z = true -> less x z = true.
Hypothesis less_total : forall x y, less x y = false -> less y x = false -> key x = key y.

Local Abbreviation lt := (fun x y => less x y = true).

Lemma insertBy_sorted (x : A) (l : list A) :
  key x ∉ key <$> l ->
  StronglySorted lt l -> StronglySorted lt (insertBy less x l).
Proof.
  intros Hx Hs. induction Hs as [|y r Hr IH Hy]; simpl.
  { repeat constructor. }
  rewrite fmap_cons, not_elem_of_cons in Hx. destruct Hx as [Hxy Hxr].
  destruct (less y x) eqn:Hyx.
  - constructor; [by apply IH|].
    rewrite insertBy_Permutation. by constructor.
  - assert (less x y = true) as Hlt.
    { destruct (less x y) eqn:E; [done|]. by destruct Hxy; apply less_total. }
    constructor; [by constructor|].
    constructor; [done|].
    eapply Forall_impl; [exact Hy|]. intros z Hz. by eapply less_trans.
Qed.

Lemma sortBy_sorted (l : list A) :
  NoDup (key <$> l) -> StronglySorted lt (sortBy less l).
Proof.
  induction l as [|x r IH]; simpl; intros Hnd; [constructor|].
  apply NoDup_cons in Hnd as [Hx Hnd].
  apply insertBy_sorted; [|by apply IH].
  by rewrite sortBy_Permutation.
Qed.

(** Two sorted lists with the same entries are the same list. *)
Lemma sorted_unique (l1 l2 : list A) :
  StronglySorted lt l1 -> StronglySorted lt l2 -> l1 ≡ₚ l2 -> l1 = l2.
Proof.
  intros H1. revert l2. induction H1 as [|x r1 Hr1 IH Hx]; intros l2 H2 Hp.
  { by apply Permutation_nil_l in Hp. }
  destruct H2 as [|y r2 Hr2 Hy].
  { by apply Permutation_nil_r in Hp. }
  assert (x = y) as ->.
  { assert (x ∈ y :: r2) as Hin by (rewrite <- Hp; left).
    assert (y ∈ x :: r1) as Hin' by (rewrite Hp; left).
    apply elem_of_cons in Hin as [->|Hin]; [done|].
    apply elem_of_cons in Hin' as [->|Hin']; [done|].
    rewrite Forall_forall in Hx, Hy.
    specialize (Hx _ Hin'). specialize (Hy _ Hin). simpl in *.
    pose proof (less_trans _ _ _ Hx Hy) as Hxx.
    by rewrite less_irrefl in Hxx. }
  f_equal. apply IH; [done|]. by apply (inj (cons y)).
Qed.

(** The sorted list does not depend on the order of the input. *)
Lemma sortBy_order_independent (l l' : list A) :
  NoDup (key <$> l) -> l ≡ₚ l' -> sortBy less l = sortBy less l'.
Proof.
  intros Hnd Hp. apply sorted_unique.
  - by apply sortBy_sorted.
  - apply sortBy_sorted. by rewrite <- Hp.
  - by rewrite !sortBy_Permutation.
Qed.

(** Any list that is sorted and has the entries of [l] is [sortBy less l]. *)
Lemma sort_unique (l out : list A) :
  NoDup (key <$> l) -> out ≡ₚ l -> StronglySorted lt out -> out = sortBy less l.
Proof.
  intros Hnd Hp Hs. apply sorted_unique; [done|by apply sortBy_sorted|].
  by rewrite sortBy_Permutation.
Qed.
End SortingFacts.

(** ** The orders used by the generator *)

Lemma ltb_irrefl (s : string) : String.ltb s s = false.
Proof.
  unfold String.ltb. pose proof (String.compare_antisym s s) as H.
  by destruct (String.compare s s).
Qed.

Lemma ltb_leb (a b : string) : String.ltb a b = true -> String.leb a b = true.
Proof. unfold String.ltb, String.leb. by destruct (String.compare a b). Qed.

Lemma ltb_asym (a b : string) : String.ltb a b = true -> String.ltb b a = false.
Proof.
  unfold String.ltb. rewrite (String.compare_antisym a b).
  by destruct (String.compare b a).
Qed.

Lemma ltb_trans (a b c : string) :
  String.ltb a b = true -> String.ltb b c = true -> String.ltb a c = true.
Proof.
  intros Hab Hbc.
  assert (String.le a c) as Hac.
  { trans b; apply Is_true_true; by apply ltb_leb. }
  apply Is_true_true in Hac. unfold String.leb in Hac. unfold String.ltb.
  destruct (String.compare a c) eqn:E; [|done..].
  apply String.compare_eq_iff in E as ->.
  apply ltb_asym in Hab. congruence.
Qed.

Lemma ltb_total (a b : string) :
  String.ltb a b = false -> String.ltb b a = false -> a = b.
Proof.
  unfold String.ltb. rewrite (String.compare_antisym a b).
  destruct (String.compare b a) eqn:E; simpl; try done.
  intros _ _. symmetry. by apply String.compare_eq_iff.
Qed.

Lemma propLess_irrefl (p : PropertyInfo) : propLess p p = false.
Proof. unfold propLess. rewrite eqb_reflx. apply ltb_irrefl. Qed.

Lemma propLess_trans (p q r : PropertyInfo) :
  propLess p q = true -> propLess q r = true -> propLess p r = true.
Proof.
  unfold propLess.
  destruct (Prop_Required p), (Prop_Required q), (Prop_Required r); simpl;
    try done; apply ltb_trans.
Qed.

Lemma propLess_total (p q : PropertyInfo) :
  propLess p q = false -> propLess q p = false -> Prop_Name p = Prop_Name q.
Proof.
  unfold propLess.
  destruct (Prop_Required p), (Prop_Required q); simpl; try done; apply ltb_total.
Qed.

Ltac order_cases :=
  repeat match goal with
    | |- context [(?a =? ?b)%Z] => destruct (Z.eqb_spec a b)
    | |- context [(?a <? ?b)%Z] => destruct (Z.ltb_spec a b)
    end; simpl; try done; try lia.

Lemma paramLess_irrefl (order : list string) (p : ParamInfo) :
  paramLess order p p = false.
Proof.
  unfold paramLess. rewrite eqb_reflx, Z.eqb_refl. apply ltb_irrefl.
Qed.

Lemma paramLess_trans (order : list string) (p q r : ParamInfo) :
  paramLess order p q = true -> paramLess order q r = true ->
  paramLess order p r = true.
Proof.
  unfold paramLess.
  generalize (indexOf order (PI_Name p)) (indexOf order (PI_Name q))
             (indexOf order (PI_Name r)).
  intros i j k.
  destruct (Param_Required (PI_Param p)), (Param_Required (PI_Param q)),
    (Param_Required (PI_Param r)); simpl; try done;
    order_cases; apply ltb_trans.
Qed.

Lemma paramLess_total (order : list string) (p q : ParamInfo) :
  paramLess order p q = false -> paramLess order q p = false ->
  PI_Name p = PI_Name q.
Proof.
  unfold paramLess.
  generalize (indexOf order (PI_Name p)) (indexOf order (PI_Name q)).
  intros i j.
  destruct (Param_Required (PI_Param p)), (Param_Required (PI_Param q)); simpl;
    try done; order_cases; apply ltb_total.
Qed.

(** ** Type resolution *)

Lemma eqb_str_true (a b : string) : (a =s b) = true <-> a = b.
Proof. apply String.eqb_eq. Qed.

Lemma eqb_str_false (a b : string) : (a =s b) = false <-> a ≠ b.
Proof. apply String.eqb_neq. Qed.

Lemma resolveType_unfold (all : gmap string Schema) (schema : Schema) (optional : bool) :
  resolveType all schema optional =
    if negb (Schema_Ref schema =s "") then
      match all !! Schema_Ref schema with
      | Some refSchema =>
          if negb (Schema_Type refSchema =s "")
             && negb (Schema_Type refSchema =s "object")
             && negb (Schema_Type refSchema =s "array")
          then scalarGoType (Schema_Type refSchema) (Schema_Format refSchema) optional
          else "*" +:+ exportedName (Schema_Ref schema)
      | None => "*" +:+ exportedName (Schema_Ref schema)
      end
    else if Schema_Type schema =s "array" then
      match Schema_Items schema with
      | Some items => "[]" +:+ resolveType all items false
      | None => "[]any"
      end
    else if Schema_Type schema =s "object" then
      match Schema_AdditionalProperties schema with
      | Some ap => "map[string]" +:+ resolveType all ap false
      | None => "map[string]any"
      end
    else scalarGoType (Schema_Type schema) (Schema_Format schema) optional.
Proof. by destruct schema. Qed.

Lemma scalarGoType_names (typ fmt : string) (optional : bool) :
  scalarGoType typ fmt optional ∈ scalarTypeNames.
Proof.
  unfold scalarGoType, scalarTypeNames.
  repeat match goal with
    | |- context [if ?b then _ else _] => destruct b
    end; set_solver.
Qed.

Lemma scalarGoType_not_boolean (typ fmt : string) (o1 o2 : bool) :
  typ ≠ "boolean" -> scalarGoType typ fmt o1 = scalarGoType typ fmt o2.
Proof.
  intros H%eqb_str_false. unfold scalarGoType. by rewrite H.
Qed.

Lemma upperFirstRune_not_bool (s : string) : upperFirstRune s ≠ "bool".
Proof.
  unfold upperFirstRune. destruct (toValidUTF8 0 s) as [|c r]; [done|].
  intros H. injection H as Hc _. revert Hc.
  destruct c as [[] [] [] [] [] [] [] []]; vm_compute; discriminate.
Qed.

Lemma exportedName_not_bool (s : string) : exportedName s ≠ "bool".
Proof.
  unfold exportedName. destruct (s =s ""); [done|]. cbv zeta.
  match goal with |- (if ?r =s "" then _ else _) ≠ _ => destruct (String.eqb_spec r "") as [->|] end;
    [done|apply upperFirstRune_not_bool].
Qed.

Lemma scalar_name_not_pointer_to_struct (t name : string) :
  t ∈ scalarTypeNames -> t ≠ "*" +:+ exportedName name.
Proof.
  unfold scalarTypeNames. intros Ht E. subst t.
  repeat (apply elem_of_cons in Ht as [Ht|Ht]; [try discriminate Ht|]).
  - injection Ht as Ht. by apply exportedName_not_bool in Ht.
  - by apply elem_of_nil in Ht.
Qed.

(** C1, amended.  A property that is the scalar boolean (type [boolean], no
    [$ref]) is listed by [SortedProperties] with the requiredness computed
    from the [annotations.required] list or its own flag, and resolves to
    [bool] when required and to [*bool] when not; a parameter of type
    [boolean] that is not repeated resolves the same way from its [required]
    flag; a repeated one resolves to [[]bool] either way; and a type other
    than [boolean] resolves the same whatever the requiredness. *)
Theorem boolean_type_follows_requiredness :
  (forall (s : SchemaInfo) (p : PropertyInfo),
      p ∈ SortedProperties s ->
      Schema_Ref (Prop_Property p) = "" ->
      Schema_Type (Prop_Property p) = "boolean" ->
      (Prop_Name p, Prop_Property p) ∈ Schema_Properties (SI_Schema s)
      /\ Prop_Required p
         = (bool_decide (Prop_Name p ∈ SI_RequiredSet s)
            || Schema_Required (Prop_Property p))
      /\ PropertyInfo_GoType p = (if Prop_Required p then "bool" else "*bool"))
  /\ (forall p : Param,
        Param_Type p = "boolean" -> Param_Repeated p = false ->
        paramGoType p = (if Param_Required p then "bool" else "*bool"))
  /\ (forall p : Param,
        Param_Type p = "boolean" -> Param_Repeated p = true ->
        paramGoType p = "[]bool")
  /\ (forall (typ fmt : string) (o1 o2 : bool),
        typ ≠ "boolean" -> scalarGoType typ fmt o1 = scalarGoType typ fmt o2).
Proof.
  split; [|split; [|split]].
  - intros s p Hin Href Htype.
    apply elem_of_sortBy, list_elem_of_fmap in Hin as ([name prop] & -> & Hin).
    simpl in *. split; [done|]. split; [done|].
    unfold PropertyInfo_GoType. simpl. rewrite resolveType_unfold, Href, Htype. simpl.
    by destruct (bool_decide (name ∈ SI_RequiredSet s) || Schema_Required prop).
  - intros p Ht Hr. unfold paramGoType. rewrite Hr, Ht.
    by destruct (Param_Required p).
  - intros p Ht Hr. unfold paramGoType. by rewrite Hr, Ht.
  - intros. by apply scalarGoType_not_boolean.
Qed.

Lemma boolean_type_follows_requiredness_witness :
  paramGoType optionalFlag = "*bool".
Proof.
  exact (proj1 (proj2 boolean_type_follows_requiredness) optionalFlag eq_refl eq_refl).
Defined.

(** C1 as stated fails for a repeated parameter of type [boolean]: it is
    required and yet does not resolve to [bool]. *)
Lemma repeated_boolean_is_a_slice :
  ~ (forall p : Param,
       Param_Type p = "boolean" ->
       paramGoType p = (if Param_Required p then "bool" else "*bool")).
Proof. intros H. by specialize (H repeatedFlag eq_refl). Qed.

(** C6.  A property that refers to a schema of the mapping whose type is
    neither empty nor [object] nor [array] resolves to the scalar type of
    that schema, which is never the pointer to the named struct (for type
    [string] it is [string]); a reference to an [object] schema resolves to
    the pointer to the named struct. *)
Theorem reference_to_wrapper_resolves_to_scalar
    (all : gmap string Schema) (schema refSchema : Schema) (optional : bool) :
  Schema_Ref schema ≠ "" ->
  all !! Schema_Ref schema = Some refSchema ->
  (Schema_Type refSchema ≠ "" -> Schema_Type refSchema ≠ "object" ->
   Schema_Type refSchema ≠ "array" ->
     resolveType all schema optional
       = scalarGoType (Schema_Type refSchema) (Schema_Format refSchema) optional
     /\ resolveType all schema optional ∈ scalarTypeNames
     /\ resolveType all schema optional ≠ "*" +:+ exportedName (Schema_Ref schema)
     /\ (Schema_Type refSchema = "string" -> resolveType all schema optional = "string"))
  /\ (Schema_Type refSchema = "object" ->
      resolveType all schema optional = "*" +:+ exportedName (Schema_Ref schema)).
Proof.
  intros Href%eqb_str_false Hlook.
  rewrite resolveType_unfold, Href, Hlook. simpl. split.
  - intros H1%eqb_str_false H2%eqb_str_false H3%eqb_str_false.
    rewrite H1, H2, H3. simpl.
    pose proof (scalarGoType_names (Schema_Type refSchema) (Schema_Format refSchema) optional).
    repeat split; [done| by apply scalar_name_not_pointer_to_struct |].
    intros ->. done.
  - intros ->. done.
Qed.

Lemma reference_to_wrapper_resolves_to_scalar_witness :
  resolveType wrapperSchemas (refSchema "StringWrapper") true = "string".
Proof.
  refine (proj2 (proj2 (proj2 (proj1
    (reference_to_wrapper_resolves_to_scalar wrapperSchemas
       (refSchema "StringWrapper") (scalarSchema "string" false) true _ _) _ _ _))) _);
    first [ reflexivity | discriminate ].
Defined.

(** ** Ordering of properties and parameters *)

Lemma StronglySorted_lookup_lt {A : Type} (R : relation A) (l : list A)
    (i j : nat) (x y : A) :
  StronglySorted R l -> l !! i = Some x -> l !! j = Some y -> (i < j)%nat -> R x y.
Proof.
  intros Hs. revert i j. induction Hs as [|z r Hr IH Hz]; intros i j Hi Hj Hlt.
  { by rewrite lookup_nil in Hi. }
  destruct j as [|j]; [lia|]. destruct i as [|i]; simpl in *.
  - injection Hi as ->. rewrite Forall_forall in Hz.
    apply Hz. by eapply list_elem_of_lookup_2.
  - eapply IH; eauto. lia.
Qed.

Lemma SortedProperties_names (s : SchemaInfo) :
  Prop_Name <$> SortedProperties s ≡ₚ (Schema_Properties (SI_Schema s)).*1.
Proof.
  unfold SortedProperties. rewrite sortBy_Permutation, <- list_fmap_compose.
  erewrite list_fmap_ext; [done|]. by intros _ [name prop] _.
Qed.

Lemma SortedProperties_sorted (s : SchemaInfo) :
  NoDup (Schema_Properties (SI_Schema s)).*1 ->
  StronglySorted (fun p q => propLess p q = true) (SortedProperties s).
Proof.
  intros Hnd. unfold SortedProperties.
  apply (sortBy_sorted propLess Prop_Name);
    [apply propLess_trans | apply propLess_total |].
  rewrite <- list_fmap_compose.
  erewrite list_fmap_ext; [exact Hnd|]. by intros _ [name prop] _.
Qed.

Lemma SortedParams_sorted (m : MethodInfo) :
  NoDup (Method_Parameters (MI_Method m)).*1 ->
  StronglySorted (fun p q => paramLess (Method_ParameterOrder (MI_Method m)) p q = true)
    (SortedParams m).
Proof.
  intros Hnd. unfold SortedParams.
  apply (sortBy_sorted _ PI_Name);
    [apply paramLess_trans | apply paramLess_total |].
  rewrite <- list_fmap_compose.
  erewrite list_fmap_ext; [exact Hnd|]. by intros _ [name prop] _.
Qed.

(** C7, amended.  In the sorted properties of a schema and in the sorted
    parameters of a method (names unique, as in a map) every required entry
    precedes every entry that is not required.  Properties of the same
    requiredness are in ascending order of their names.  Parameters of the
    same requiredness, required or not, are ordered by their position in
    [parameterOrder]: one that is absent from it comes after every one that is
    listed, listed ones come in ascending position, and only parameters with
    the same position (both absent) are in ascending order of their names.
    The properties zebra, alpha, required, beta, of which only required is
    required, come out as required, alpha, beta, zebra. *)
Theorem sorted_order_of_properties_and_parameters :
  (forall (s : SchemaInfo) (i j : nat) (p q : PropertyInfo),
      NoDup (Schema_Properties (SI_Schema s)).*1 ->
      SortedProperties s !! i = Some p -> SortedProperties s !! j = Some q ->
      (i < j)%nat ->
      (Prop_Required q = true -> Prop_Required p = true)
      /\ (Prop_Required p = Prop_Required q ->
            String.ltb (Prop_Name p) (Prop_Name q) = true))
  /\ (forall (m : MethodInfo) (i j : nat) (p q : ParamInfo),
      NoDup (Method_Parameters (MI_Method m)).*1 ->
      SortedParams m !! i = Some p -> SortedParams m !! j = Some q ->
      (i < j)%nat ->
      let order := Method_ParameterOrder (MI_Method m) in
      (Param_Required (PI_Param q) = true -> Param_Required (PI_Param p) = true)
      /\ (Param_Required (PI_Param p) = Param_Required (PI_Param q) ->
            (indexOf order (PI_Name p) = (-1)%Z -> indexOf order (PI_Name q) = (-1)%Z)
            /\ (indexOf order (PI_Name q) ≠ (-1)%Z ->
                  (indexOf order (PI_Name p) <= indexOf order (PI_Name q))%Z)
            /\ (indexOf order (PI_Name p) = indexOf order (PI_Name q) ->
                  String.ltb (PI_Name p) (PI_Name q) = true)))
  /\ Prop_Name <$> SortedProperties (NewSchemaInfo "TestSchema" testSchema ∅)
     = ["required"; "alpha"; "beta"; "zebra"].
Proof.
  split; [|split; [|reflexivity]].
  - intros s i j p q Hnd Hi Hj Hlt.
    pose proof (StronglySorted_lookup_lt _ _ _ _ _ _
                  (SortedProperties_sorted s Hnd) Hi Hj Hlt) as H.
    simpl in H. unfold propLess in H.
    destruct (Prop_Required p), (Prop_Required q); simpl in H; try done.
  - intros m i j p q Hnd Hi Hj Hlt order.
    pose proof (StronglySorted_lookup_lt _ _ _ _ _ _
                  (SortedParams_sorted m Hnd) Hi Hj Hlt) as H.
    simpl in H. unfold paramLess in H. fold order in H.
    revert H.
    generalize (indexOf order (PI_Name p)) (indexOf order (PI_Name q)).
    intros a b.
    destruct (Param_Required (PI_Param p)), (Param_Required (PI_Param q)); simpl;
      try done; order_cases; intros Hless; repeat split; intros; try done; try lia.
Qed.

Lemma sorted_order_of_properties_and_parameters_witness :
  String.ltb "a" "b" = true.
Proof.
  refine (proj2 (proj1 sorted_order_of_properties_and_parameters
            (NewSchemaInfo "T" (objectSchema [("a", scalarSchema "string" false);
                                              ("b", scalarSchema "string" false)]) ∅)
            0%nat 1%nat
            (mkPropertyInfo "a" (scalarSchema "string" false) false ∅)
            (mkPropertyInfo "b" (scalarSchema "string" false) false ∅) _ _ _ _) _);
    first [ reflexivity | lia | apply (bool_decide_unpack _); vm_compute; exact I ].
Defined.

(** C7 as stated fails for parameters: two parameters that are not required
    and are listed in [parameterOrder] against their names come out in that
    order and not by name. *)
Lemma optional_parameters_follow_parameterOrder :
  ~ (forall (m : MethodInfo) (i j : nat) (p q : ParamInfo),
       NoDup (Method_Parameters (MI_Method m)).*1 ->
       SortedParams m !! i = Some p -> SortedParams m !! j = Some q ->
       (i < j)%nat ->
       Param_Required (PI_Param p) = false -> Param_Required (PI_Param q) = false ->
       String.ltb (PI_Name p) (PI_Name q) = true).
Proof.
  intros H.
  specialize (H reorderedMethod 0%nat 1%nat
                (mkParamInfo "b" optionalParam) (mkParamInfo "a" optionalParam)).
  assert (NoDup (Method_Parameters (MI_Method reorderedMethod)).*1) as Hnd.
  { apply (bool_decide_unpack _). vm_compute. exact I. }
  specialize (H Hnd eq_refl eq_refl ltac:(lia) eq_refl eq_refl).
  discriminate H.
Qed.

(** ** The schema dependency collector *)

Lemma visitAll_app (rec : string -> gset string -> option (gset string))
    (l1 l2 : list string) (needed : gset string) :
  visitAll rec (l1 ++ l2) needed = visitAll rec l1 needed ≫= visitAll rec l2.
Proof.
  revert needed. induction l1 as [|n l1 IH]; intros needed; simpl; [done|].
  destruct (rec n needed) as [needed'|]; simpl; [apply IH|done].
Qed.

Lemma refsOf_unfold (s : Schema) :
  refsOf s =
    (if negb (Schema_Ref s =s "") then [Schema_Ref s] else [])
    ++ (Schema_Properties s ≫= (fun kp => refsOf kp.2))
    ++ match Schema_Items s with Some i => refsOf i | None => [] end
    ++ match Schema_AdditionalProperties s with Some a => refsOf a | None => [] end.
Proof.
  destruct s as [? ? ? properties ? ? ? ? ? ? ? ?]; simpl.
  do 2 f_equal. induction properties as [|[k p] l IH]; simpl; [done|].
  by rewrite IH.
Qed.

Lemma refsOf_inner (s : Schema) :
  refsOf s = (if negb (Schema_Ref s =s "") then [Schema_Ref s] else []) ++ innerRefs s.
Proof. by rewrite refsOf_unfold. Qed.

Lemma collectFromSchema_visitAll (rec : string -> gset string -> option (gset string))
    (s : Schema) (needed : gset string) :
  collectFromSchema rec s needed = visitAll rec (refsOf s) needed.
Proof.
  revert needed. induction s as [s Hprops Hitems Hadd] using Schema_nested_ind.
  intros needed. rewrite refsOf_unfold.
  destruct s as [? ? ? properties items additional ref ? ? ? ? ?]; simpl in *.
  rewrite visitAll_app.
  assert (visitAll rec (if negb (ref =s "") then [ref] else []) needed
          = (if negb (ref =s "") then rec ref needed else Some needed)) as ->.
  { destruct (negb (ref =s "")); simpl; [|done]. by destruct (rec ref needed). }
  destruct (if negb (ref =s "") then rec ref needed else Some needed)
    as [needed1|]; simpl; [|done].
  rewrite visitAll_app.
  assert (forall n0,
    (fix props (l : list (string * Schema)) (needed : gset string) :=
       match l with
       | [] => Some needed
       | (_, prop) :: l' => needed ← collectFromSchema rec prop needed; props l' needed
       end) properties n0
    = visitAll rec (properties ≫= (fun kp => refsOf kp.2)) n0) as ->.
  { induction Hprops as [|[k p] l Hp Hl IH]; intros n0; simpl in *; [done|].
    rewrite visitAll_app, Hp.
    destruct (visitAll rec (refsOf p) n0); simpl; [apply IH|done]. }
  destruct (visitAll rec (properties ≫= (fun kp => refsOf kp.2)) needed1)
    as [needed2|]; simpl; [|done].
  rewrite visitAll_app.
  assert (match items with
          | Some i => collectFromSchema rec i needed2
          | None => Some needed2
          end
          = visitAll rec match items with Some i => refsOf i | None => [] end needed2) as ->.
  { destruct items; [by apply Hitems|done]. }
  destruct (visitAll rec match items with Some i => refsOf i | None => [] end needed2)
    as [needed3|]; simpl; [|done].
  destruct additional; [by apply Hadd|done].
Qed.

Lemma collectSchemaRefs_unfold (fuel : nat) (name : string)
    (all : gmap string Schema) (needed : gset string) :
  collectSchemaRefs fuel name all needed =
    if bool_decide (name ∈ needed) then Some needed
    else match all !! name with
         | None => Some needed
         | Some schema =>
             match fuel with
             | O => None
             | S fuel' =>
                 visitAll (fun n s => collectSchemaRefs fuel' n all s)
                   (innerRefs schema) ({[name]} ∪ needed)
             end
         end.
Proof.
  destruct fuel as [|fuel]; simpl; [done|].
  destruct (bool_decide (name ∈ needed)); [done|].
  destruct (all !! name) as [schema|]; [|done].
  unfold innerRefs. rewrite visitAll_app.
  set (rec := fun n s => collectSchemaRefs fuel n all s).
  set (needed0 := {[name]} ∪ needed). clearbody needed0.
  assert (forall l n0,
    (fix props (l : list (string * Schema)) (needed : gset string) :=
       match l with
       | [] => Some needed
       | (_, prop) :: l' => needed ← collectFromSchema rec prop needed; props l' needed
       end) l n0
    = visitAll rec (l ≫= (fun kp => refsOf kp.2)) n0) as ->.
  { induction l as [|[k p] l IH]; intros n0; simpl; [done|].
    rewrite visitAll_app, collectFromSchema_visitAll.
    destruct (visitAll rec (refsOf p) n0); simpl; [apply IH|done]. }
  destruct (visitAll rec (Schema_Properties schema ≫= (fun kp => refsOf kp.2)) needed0)
    as [needed2|]; simpl; [|done].
  rewrite visitAll_app.
  assert (match Schema_Items schema with
          | Some i => collectFromSchema rec i needed2
          | None => Some needed2
          end
          = visitAll rec match Schema_Items schema with
                         | Some i => refsOf i | None => [] end needed2) as ->.
  { destruct (Schema_Items schema); [apply collectFromSchema_visitAll|done]. }
  destruct (visitAll rec match Schema_Items schema with
                         | Some i => refsOf i | None => [] end needed2)
    as [needed3|]; simpl; [|done].
  destruct (Schema_AdditionalProperties schema); [apply collectFromSchema_visitAll|done].
Qed.

Lemma elem_of_refsOf (n : string) (s : Schema) : n ∈ refsOf s <-> occurs n s.
Proof.
  split.
  - induction s as [s Hprops Hitems Hadd] using Schema_nested_ind.
    rewrite refsOf_unfold, !elem_of_app. intros [H|[H|[H|H]]].
    + destruct (String.eqb_spec (Schema_Ref s) "") as [E|E]; simpl in H.
      * by apply elem_of_nil in H.
      * apply list_elem_of_singleton in H as ->. by apply occurs_ref.
    + apply list_elem_of_bind in H as ([k p] & Hn & Hkp).
      rewrite Forall_forall in Hprops.
      eapply occurs_prop; [exact Hkp|]. by apply (Hprops _ Hkp).
    + destruct (Schema_Items s) as [i|] eqn:E; [|by apply elem_of_nil in H].
      eapply occurs_items; [exact E|]. by apply Hitems.
    + destruct (Schema_AdditionalProperties s) as [a|] eqn:E;
        [|by apply elem_of_nil in H].
      eapply occurs_additional; [exact E|]. by apply Hadd.
  - induction 1 as [s Href Hne|s k p Hkp _ IH|s i Hi _ IH|s a Ha _ IH];
      rewrite refsOf_unfold, !elem_of_app.
    + left. apply eqb_str_false in Hne. rewrite <- Href in Hne |- *.
      rewrite Hne. simpl. by apply list_elem_of_singleton.
    + right; left. apply list_elem_of_bind. by exists (k, p).
    + right; right; left. by rewrite Hi.
    + right; right; right. by rewrite Ha.
Qed.

Lemma elem_of_innerRefs (n : string) (s : Schema) : n ∈ innerRefs s <-> mentions s n.
Proof.
  unfold innerRefs, mentions. rewrite !elem_of_app, list_elem_of_bind. split.
  - intros [([k p] & Hn & Hkp)|[H|H]].
    + left. exists k, p. by rewrite <- elem_of_refsOf.
    + right; left. destruct (Schema_Items s) as [i|]; [|by apply elem_of_nil in H].
      exists i. by rewrite <- elem_of_refsOf.
    + right; right. destruct (Schema_AdditionalProperties s) as [a|];
        [|by apply elem_of_nil in H].
      exists a. by rewrite <- elem_of_refsOf.
  - intros [(k & p & Hkp & Ho)|[(i & -> & Ho)|(a & -> & Ho)]].
    + left. exists (k, p). by rewrite elem_of_refsOf.
    + right; left. by rewrite elem_of_refsOf.
    + right; right. by rewrite elem_of_refsOf.
Qed.

Section CollectorInvariant.
Context (all : gmap string Schema).
Implicit Types (N : gset string) (l : list string).

Lemma remaining_mono N N1 :
  N ⊆ N1 -> size (dom all ∖ N1) <= size (dom all ∖ N).
Proof. intros H. apply subseteq_size. set_solver. Qed.

Lemma visitAll_collected (f : nat) :
  (forall name N, size (dom all ∖ N) <= f ->
     exists N', collectSchemaRefs f name all N = Some N'
                /\ collected all [name] N N') ->
  forall l N, size (dom all ∖ N) <= f ->
    exists N', visitAll (fun n s => collectSchemaRefs f n all s) l N = Some N'
               /\ collected all l N N'.
Proof.
  intros Hone. induction l as [|n l IH]; intros N Hsize; simpl.
  { exists N. split; [done|]. split; [done|]. split; [|done].
    intros m Hm. by apply elem_of_nil in Hm. }
  destruct (Hone n N Hsize) as (N1 & -> & Hsub1 & Hin1 & Hnew1). simpl.
  destruct (IH N1) as (N2 & -> & Hsub2 & Hin2 & Hnew2).
  { pose proof (remaining_mono _ _ Hsub1). lia. }
  exists N2. split; [done|]. split; [set_solver|]. split.
  - intros m [->|Hm]%elem_of_cons Hsome.
    + apply Hsub2, Hin1; [by left|done].
    + by apply Hin2.
  - intros x Hx HxN. destruct (decide (x ∈ N1)) as [Hx1|Hx1].
    + destruct (Hnew1 x Hx1 HxN) as [(m & Hm & Hsome & Hrtc) Hclosed].
      split.
      * exists m. split; [|done]. apply list_elem_of_singleton in Hm as ->. by left.
      * intros y Hy. by apply Hsub2, Hclosed.
    + destruct (Hnew2 x Hx Hx1) as [(m & Hm & Hsome & Hrtc) Hclosed].
      split; [|done]. exists m. split; [by right|done].
Qed.

Lemma collectSchemaRefs_collected (f : nat) (name : string) N :
  size (dom all ∖ N) <= f ->
  exists N', collectSchemaRefs f name all N = Some N' /\ collected all [name] N N'.
Proof.
  revert name N. induction f as [|f IH]; intros name N Hsize;
    rewrite collectSchemaRefs_unfold; case_bool_decide as Hin.
  1,3: exists N; split; [done|]; split; [done|]; split; [|done];
       by intros m ->%list_elem_of_singleton.
  all: destruct (all !! name) as [schema|] eqn:Hlook.
  2,4: exists N; split; [done|]; split; [done|]; split; [|done];
       intros m ->%list_elem_of_singleton [? Hs]; congruence.
  - assert (name ∈ dom all ∖ N) as Hname.
    { apply elem_of_difference. split; [by apply elem_of_dom|done]. }
    assert (size (dom all ∖ N) = 0) as Hz by lia.
    apply size_empty_iff in Hz. set_solver.
  - destruct (visitAll_collected f IH (innerRefs schema) ({[name]} ∪ N))
      as (N' & -> & Hsub & Hin' & Hnew).
    { assert (dom all ∖ ({[name]} ∪ N) ⊂ dom all ∖ N) as Hlt.
      { assert (name ∈ dom all) as Hdom by (by eapply elem_of_dom_2).
        split; [set_solver|]. intros Hsub. specialize (Hsub name). set_solver. }
      apply subset_size in Hlt. lia. }
    exists N'. split; [done|]. split; [set_solver|]. split.
    + intros m ->%list_elem_of_singleton _. set_solver.
    + intros x Hx HxN. destruct (decide (x = name)) as [->|Hne].
      * split.
        -- exists name. split; [by left|]. split; [by eexists|done].
        -- intros y (s' & Hs' & Hment & Hy). rewrite Hlook in Hs'.
           injection Hs' as <-. apply Hin'; [|done]. by apply elem_of_innerRefs.
      * destruct (Hnew x Hx) as [(m & Hm & Hsome & Hrtc) Hclosed]; [set_solver|].
        split; [|done]. exists name. split; [by left|]. split; [by eexists|].
        eapply rtc_l; [|exact Hrtc]. exists schema.
        split; [done|]. split; [by apply elem_of_innerRefs|done].
Qed.
End CollectorInvariant.

Lemma collectNeeded_visitAll (fuel : nat) (ms : list MethodInfo)
    (all : gmap string Schema) (N : gset string) :
  collectNeeded fuel ms all N
  = visitAll (fun n s => collectSchemaRefs fuel n all s) (methodRefs ms) N.
Proof.
  revert N. induction ms as [|m ms IH]; intros N; [done|].
  change (methodRefs (m :: ms)) with
    ((match Method_Request (MI_Method m) with
      | Some ref => if negb (ref =s "") then [ref] else []
      | None => []
      end ++
      match Method_Response (MI_Method m) with
      | Some ref => if negb (ref =s "") then [ref] else []
      | None => []
      end) ++ methodRefs ms).
  rewrite !visitAll_app. simpl.
  assert (forall (o : option string) N0,
    match o with
    | Some ref => if negb (ref =s "") then collectSchemaRefs fuel ref all N0 else Some N0
    | None => Some N0
    end
    = visitAll (fun n s => collectSchemaRefs fuel n all s)
        match o with
        | Some ref => if negb (ref =s "") then [ref] else []
        | None => []
        end N0) as Hopt.
  { intros [ref|] N0; [|done]. destruct (negb (ref =s "")); simpl; [|done].
    by destruct (collectSchemaRefs fuel ref all N0). }
  rewrite Hopt.
  destruct (visitAll _ _ N) as [N1|]; simpl; [|done].
  rewrite Hopt.
  destruct (visitAll _ _ N1) as [N2|]; simpl; [|done].
  apply IH.
Qed.

Lemma collectNeeded_reachable (ms : list MethodInfo) (all : gmap string Schema) :
  exists needed, collectNeeded (size all) ms all ∅ = Some needed
                 /\ forall x, x ∈ needed <-> reachable all ms x.
Proof.
  rewrite collectNeeded_visitAll.
  destruct (visitAll_collected all (size all)
              (fun name N => collectSchemaRefs_collected all (size all) name N)
              (methodRefs ms) ∅) as (needed & -> & _ & Hin & Hnew).
  { rewrite difference_empty_L, size_dom. lia. }
  exists needed. split; [done|]. intros x. split.
  - intros Hx. destruct (Hnew x Hx) as [(r & Hr & Hsome & Hrtc) _]; [set_solver|].
    by exists r.
  - intros (r & Hr & Hsome & Hrtc).
    assert (r ∈ needed) as Hneeded by by apply Hin.
    clear Hr Hsome. induction Hrtc as [|a b c Hab _ IH]; [done|].
    apply IH. destruct (Hnew a Hneeded) as [_ Hclosed]; [set_solver|].
    by apply Hclosed.
Qed.

Lemma sortStrings_sorted (names : list string) :
  NoDup names -> StronglySorted (fun a b => String.ltb a b = true) (sortStrings names).
Proof.
  intros Hnd. apply (sortBy_sorted String.ltb id); [apply ltb_trans|apply ltb_total|].
  by rewrite list_fmap_id.
Qed.

Lemma schemaInfos_names (names : list string) (all : gmap string Schema) :
  (forall n, n ∈ names -> is_Some (all !! n)) ->
  SI_Name <$> schemaInfos names all = sortStrings names.
Proof.
  intros Hall. unfold schemaInfos.
  assert (forall n, n ∈ sortStrings names -> is_Some (all !! n)) as Hsorted.
  { intros n Hn. apply Hall. by apply elem_of_sortBy in Hn. }
  induction (sortStrings names) as [|n l IH]; [done|]. simpl.
  destruct (Hsorted n) as [schema Hs]; [by left|]. rewrite Hs. simpl.
  f_equal. apply IH. intros m Hm. apply Hsorted. by right.
Qed.

Lemma depends_rtc_in_mapping (all : gmap string Schema) (r x : string) :
  rtc (depends all) r x -> is_Some (all !! r) -> is_Some (all !! x).
Proof.
  induction 1 as [|a b c Hab _ IH]; [done|]. intros _.
  apply IH. by destruct Hab as (_ & _ & _ & ?).
Qed.

Lemma collectSchemas_names (ms : list MethodInfo) (all : gmap string Schema) :
  exists needed result,
    collectNeeded (size all) ms all ∅ = Some needed
    /\ collectSchemas ms all = Some result
    /\ SI_Name <$> result = sortStrings (elements needed)
    /\ forall x, x ∈ needed <-> reachable all ms x.
Proof.
  destruct (collectNeeded_reachable ms all) as (needed & Hc & Hreach).
  exists needed, (schemaInfos (elements needed) all).
  unfold collectSchemas. rewrite Hc. simpl. repeat split; try by apply Hreach.
  apply schemaInfos_names. intros n Hn%elem_of_elements%Hreach.
  destruct Hn as (r & _ & Hsome & Hrtc). by eapply depends_rtc_in_mapping.
Qed.

(** C3.  [collectSchemas] returns a list whose names are exactly the schemas
    of the mapping reachable from the request and response references of the
    selected methods, through references written inside properties, array
    items and additional properties of the schemas on the way; the names are
    in strictly ascending byte order, and each entry carries the schema that
    the mapping has under its name. *)
Theorem collected_schemas_are_the_reachable_ones
    (ms : list MethodInfo) (all : gmap string Schema) :
  exists result,
    collectSchemas ms all = Some result
    /\ (forall x, x ∈ SI_Name <$> result <-> reachable all ms x)
    /\ StronglySorted (fun a b => String.ltb a b = true) (SI_Name <$> result)
    /\ (forall si, si ∈ result -> all !! SI_Name si = Some (SI_Schema si)).
Proof.
  destruct (collectSchemas_names ms all) as (needed & result & Hc & Hr & Hnames & Hreach).
  exists result. split; [done|]. rewrite Hnames. repeat split.
  - intros Hx%elem_of_sortBy%elem_of_elements. by apply Hreach.
  - intros Hx. apply elem_of_sortBy, elem_of_elements. by apply Hreach.
  - apply sortStrings_sorted, NoDup_elements.
  - unfold collectSchemas in Hr. rewrite Hc in Hr. injection Hr as <-.
    unfold schemaInfos. intros si Hsi. apply list_elem_of_omap in Hsi as (n & _ & Hn).
    destruct (all !! n) as [schema|] eqn:E; [|done]. by injection Hn as <-.
Qed.

(** An array of [Video] and a map of [Label] bring both in; [Playlist], which
    nothing refers to, stays out. *)
Example collect_through_items_and_values :
  (fun result : list SchemaInfo => SI_Name <$> result)
    <$> collectSchemas [methodWith (Some "Labels") (Some "ListResponse")] containerSchemas
  = Some ["Label"; "Labels"; "ListResponse"; "Video"].
Proof. vm_compute. reflexivity. Qed.

(** C2.  For every schema mapping, cyclic or not: [collectSchemaRefs]
    returns whenever its fuel is at least the number of schemas not yet in
    [needed]; a name that is already in [needed] is not entered again, the
    set comes back as it is; and [collectSchemas], which starts with as much
    fuel as the mapping has schemas, returns a list in which no name occurs
    twice. *)
Theorem dependency_collection_terminates
    (ms : list MethodInfo) (all : gmap string Schema) :
  (forall (fuel : nat) (name : string) (N : gset string),
      size (dom all ∖ N) <= fuel ->
      exists N', collectSchemaRefs fuel name all N = Some N' /\ N ⊆ N')
  /\ (forall (fuel : nat) (name : string) (N : gset string),
        name ∈ N -> collectSchemaRefs fuel name all N = Some N)
  /\ (exists result,
        collectSchemas ms all = Some result /\ NoDup (SI_Name <$> result)).
Proof.
  split; [|split].
  - intros fuel name N Hsize.
    destruct (collectSchemaRefs_collected all fuel name N Hsize) as (N' & HN' & Hsub & _).
    by exists N'.
  - intros fuel name N Hin. rewrite collectSchemaRefs_unfold.
    by rewrite bool_decide_eq_true_2.
  - destruct (collectSchemas_names ms all) as (needed & result & _ & Hr & Hnames & _).
    exists result. split; [done|]. rewrite Hnames.
    unfold sortStrings. rewrite sortBy_Permutation. apply NoDup_elements.
Qed.

Lemma dependency_collection_terminates_witness :
  exists N', collectSchemaRefs 1 "Node" cyclicSchemas ∅ = Some N' /\ ∅ ⊆ N'.
Proof.
  refine (proj1 (dependency_collection_terminates [] cyclicSchemas) 1%nat "Node" ∅ _).
  vm_compute. lia.
Defined.

(** The schema that refers to itself is collected once. *)
Example collect_self_reference :
  (fun result : list SchemaInfo => SI_Name <$> result)
    <$> collectSchemas [methodWith None (Some "Node")] cyclicSchemas
  = Some ["Node"].
Proof. vm_compute. reflexivity. Qed.



(** ** The entry point *)

Lemma selectMethods_missing (allMethods : gmap string Method)
    (prefix structPrefix : string) (names : list string) (name : string) :
  name ∈ names -> allMethods !! name = None ->
  exists missing, missing ∈ names /\ allMethods !! missing = None
    /\ selectMethods allMethods prefix structPrefix names = inl (MethodNotFound missing).
Proof.
  induction names as [|n names IH]; intros Hin Hnone.
  { by apply elem_of_nil in Hin. }
  simpl. destruct (allMethods !! n) as [m|] eqn:Hn.
  - apply elem_of_cons in Hin as [->|Hin]; [congruence|].
    destruct (IH Hin Hnone) as (missing & Hm & Hmn & ->).
    exists missing. split; [by right|done].
  - exists n. split; [by left|done].
Qed.

(** C4.  When the explicit method list holds a name that is not a key of the
    flattened method set, generation returns the empty text and the error
    [MethodNotFound] for such a name, whatever the template and the formatter
    would do, and none of the later stages (schema collection, rendering,
    formatting) has been entered. *)
Theorem unknown_method_fails_before_any_stage
    (Execute : TemplateData -> string + string)
    (formatSource : string -> string + string)
    (doc : Document) (opts : GenerateOptions) (name : string) :
  name ∈ Opt_Methods opts ->
  AllMethods doc !! name = None ->
  exists missing,
    missing ∈ Opt_Methods opts /\ AllMethods doc !! missing = None
    /\ GenerateMCPTools Execute formatSource doc opts
       = mkOutcome [] "" (Some (MethodNotFound missing)).
Proof.
  intros Hin Hnone. unfold GenerateMCPTools, selectedMethods. simpl.
  destruct (Opt_Methods opts) as [|n names] eqn:Hnames.
  { by apply elem_of_nil in Hin. }
  destruct (selectMethods_missing (AllMethods doc)
              (if Opt_Prefix opts =s "" then Doc_Name doc +:+ "_" else Opt_Prefix opts)
              (if Opt_StructPrefix opts =s "" then "API" else Opt_StructPrefix opts)
              (n :: names) name Hin Hnone) as (missing & Hm & Hmn & ->).
  by exists missing.
Qed.

Lemma unknown_method_fails_before_any_stage_witness :
  exists missing,
    missing ∈ Opt_Methods unknownMethodOptions
    /\ AllMethods emptyDocument !! missing = None
    /\ GenerateMCPTools renderNothing formatNothing emptyDocument unknownMethodOptions
       = mkOutcome [] "" (Some (MethodNotFound missing)).
Proof.
  refine (unknown_method_fails_before_any_stage renderNothing formatNothing
            emptyDocument unknownMethodOptions "nope" _ _).
  - apply (bool_decide_unpack _). vm_compute. exact I.
  - reflexivity.
Defined.

(** C8 as stated fails: generation also fails when a method name is not
    found, with a template and a formatter that never fail. *)
Lemma method_not_found_is_a_third_failure :
  ~ (forall (Execute : TemplateData -> string + string)
            (formatSource : string -> string + string)
            (doc : Document) (opts : GenerateOptions),
       failure (GenerateMCPTools Execute formatSource doc opts) ≠ None ->
       (exists data cause, Execute data = inl cause)
       \/ (exists buf cause, formatSource buf = inl cause)).
Proof.
  intros H.
  destruct (H renderNothing formatNothing emptyDocument unknownMethodOptions)
    as [(data & cause & Hd)|(buf & cause & Hb)]; [done|discriminate..].
Qed.

(** C8, amended.  Once every selected method name is found, generation has
    exactly two ways to fail.  If the template fails, the text is empty and
    the error is [TemplateExecutionFailed]; if the template returns a text
    and the formatter fails, that very text is returned with the error
    [SyntaxErrors]; if both succeed, the formatted text is returned with no
    error.  The rendering stage is entered in each case, the formatting stage
    only after the template has succeeded. *)
Theorem generation_outcomes_after_selection
    (Execute : TemplateData -> string + string)
    (formatSource : string -> string + string)
    (doc : Document) (opts : GenerateOptions) (ms : list MethodInfo) :
  selectedMethods doc opts = inr ms ->
  let data := (templateData doc opts ms).2 in
  let out := GenerateMCPTools Execute formatSource doc opts in
  TD_Methods data = ms
  /\ (forall cause, Execute data = inl cause ->
        output out = "" /\ failure out = Some (TemplateExecutionFailed cause)
        /\ RenderStage ∈ stages out /\ FormatStage ∉ stages out)
  /\ (forall buf cause, Execute data = inr buf -> formatSource buf = inl cause ->
        output out = buf /\ failure out = Some (SyntaxErrors cause)
        /\ FormatStage ∈ stages out)
  /\ (forall buf formatted, Execute data = inr buf -> formatSource buf = inr formatted ->
        output out = formatted /\ failure out = None /\ FormatStage ∈ stages out).
Proof.
  intros Hsel data out. subst data out. unfold GenerateMCPTools. rewrite Hsel.
  unfold templateData.
  destruct (Opt_GenerateSchema (withDefaults doc opts)); simpl;
    (split; [done|]); (split; [|split]).
  all: try (intros cause ->; simpl; repeat split; set_solver).
  all: try (intros buf x -> ->; simpl; repeat split; set_solver).
Qed.

Lemma generation_outcomes_after_selection_witness :
  output (GenerateMCPTools renderNothing formatNothing emptyDocument
            (mkGenerateOptions "" [] "" "" true)) = "".
Proof.
  refine (proj1 (proj2 (proj2 (proj2
    (generation_outcomes_after_selection renderNothing formatNothing emptyDocument
       (mkGenerateOptions "" [] "" "" true) [] _))) "" "" _ _));
    reflexivity.
Defined.

(** ** Descriptions *)

Lemma app_cons (a : ascii) (s t : string) : String a s +:+ t = String a (s +:+ t).
Proof. reflexivity. Qed.

Lemma app_nil_l (s : string) : "" +:+ s = s.
Proof. reflexivity. Qed.

Lemma app_nil_r (s : string) : s +:+ "" = s.
Proof. induction s as [|a s IH]; [done|]. by rewrite app_cons, IH. Qed.

Lemma app_assoc (s t u : string) : (s +:+ t) +:+ u = s +:+ (t +:+ u).
Proof. induction s as [|a s IH]; [done|]. by rewrite !app_cons, IH. Qed.

Lemma length_app (s t : string) :
  String.length (s +:+ t) = (String.length s + String.length t)%nat.
Proof. induction s as [|a s IH]; [done|]. rewrite app_cons. simpl. by rewrite IH. Qed.

Lemma rev_app_app (s t u : string) :
  String.rev_app s t +:+ u = String.rev_app s (t +:+ u).
Proof. revert t. induction s as [|a s IH]; intros t; simpl; [done|]. by rewrite IH. Qed.

Lemma rev_app_rev_app (s t u : string) :
  String.rev_app (String.rev_app s t) u = String.rev_app t (s +:+ u).
Proof.
  revert t u. induction s as [|a s IH]; intros t u; simpl; [done|].
  by rewrite IH.
Qed.

Lemma rev_involutive (s : string) : String.rev (String.rev s) = s.
Proof. unfold String.rev. rewrite rev_app_rev_app. simpl. apply app_nil_r. Qed.

Lemma rev_append (s t : string) :
  String.rev (s +:+ t) = String.rev t +:+ String.rev s.
Proof.
  unfold String.rev. revert t. generalize "" at 1 3 as acc.
  induction s as [|a s IH]; intros acc t.
  - simpl. by rewrite rev_app_app.
  - rewrite app_cons. simpl. by rewrite IH.
Qed.

(** *** Replacing one byte by another *)

Lemma ReplaceAll_byte (a b : ascii) (s : string) :
  ReplaceAll s (String a "") (String b "")
  = mapBytes (fun c => if Ascii.eqb c a then b else c) s.
Proof.
  unfold ReplaceAll. induction s as [|c r IH]; [done|].
  simpl. rewrite IH. destruct (ascii_dec a c) as [->|Hne].
  - rewrite Ascii.eqb_refl. by destruct r.
  - apply not_eq_sym, Ascii.eqb_neq in Hne. by rewrite Hne.
Qed.

Lemma mapBytes_compose (f g : ascii -> ascii) (s : string) :
  mapBytes f (mapBytes g s) = mapBytes (fun c => f (g c)) s.
Proof. induction s as [|c r IH]; [done|]. simpl. by rewrite IH. Qed.

Lemma mapBytes_ext (f g : ascii -> ascii) (s : string) :
  (forall c, f c = g c) -> mapBytes f s = mapBytes g s.
Proof. intros H. induction s as [|c r IH]; [done|]. simpl. by rewrite IH, H. Qed.

Lemma normalizeDescription_bytes (desc : string) :
  normalizeDescription desc = TrimSpace (mapBytes cleanByte desc).
Proof.
  unfold normalizeDescription, newline, dquote, backtick.
  rewrite !ReplaceAll_byte, !mapBytes_compose. f_equal.
  apply mapBytes_ext. intros c.
  destruct c as [[] [] [] [] [] [] [] []]; reflexivity.
Qed.

Lemma mapBytes_cleanByte_plain (s : string) :
  allBytes plainByte (mapBytes cleanByte s) = true.
Proof.
  induction s as [|c r IH]; [done|]. simpl. rewrite IH, andb_true_r.
  destruct c as [[] [] [] [] [] [] [] []]; reflexivity.
Qed.

(** *** Trimming *)

Lemma allBytes_app (P : ascii -> bool) (s t : string) :
  allBytes P (s +:+ t) = allBytes P s && allBytes P t.
Proof.
  induction s as [|c r IH]; [done|]. rewrite app_cons. simpl.
  by rewrite IH, andb_assoc.
Qed.

Lemma allBytes_rev (P : ascii -> bool) (s : string) :
  allBytes P (String.rev s) = allBytes P s.
Proof.
  unfold String.rev.
  assert (forall t, allBytes P (String.rev_app s t) = allBytes P s && allBytes P t) as H.
  { induction s as [|c r IH]; intros t; simpl; [done|].
    rewrite IH. simpl. by rewrite andb_assoc, (andb_comm (P c)). }
  by rewrite H, andb_true_r.
Qed.

Lemma dropWhile_suffix (w : string -> nat) (skip : nat) (s : string) :
  exists pre, s = pre +:+ dropWhile w skip s.
Proof.
  revert skip. induction s as [|c r IH]; intros skip; simpl.
  { by exists "". }
  assert (forall k, exists pre, String c r = pre +:+ dropWhile w k r) as Hdrop.
  { intros k. destruct (IH k) as [pre Hpre]. exists (String c pre).
    by rewrite app_cons, <- Hpre. }
  destruct skip as [|k]; [|apply Hdrop].
  destruct (w (String c r)); [by exists ""|apply Hdrop].
Qed.

Lemma dropWhile_head (w : string -> nat) (skip : nat) (s : string) :
  w "" = O -> w (dropWhile w skip s) = O.
Proof.
  intros Hnil. revert skip. induction s as [|c r IH]; intros skip; simpl; [done|].
  destruct skip as [|k]; [|apply IH].
  destruct (w (String c r)) eqn:E; [done|apply IH].
Qed.

Lemma TrimRight_prefix (t : string) : exists suf, t = TrimRight t +:+ suf.
Proof.
  unfold TrimRight.
  destruct (dropWhile_suffix spaceLenRev O (String.rev t)) as [pre Hpre].
  exists (String.rev pre).
  by rewrite <- rev_append, <- Hpre, rev_involutive.
Qed.

Lemma TrimSpace_allBytes (P : ascii -> bool) (s : string) :
  allBytes P s = true -> allBytes P (TrimSpace s) = true.
Proof.
  intros Hs. unfold TrimSpace.
  assert (allBytes P (TrimLeft s) = true) as Hl.
  { destruct (dropWhile_suffix spaceLen O s) as [pre Hpre].
    rewrite Hpre, allBytes_app in Hs. by apply andb_true_iff in Hs as [_ ?]. }
  destruct (TrimRight_prefix (TrimLeft s)) as [suf Hsuf].
  rewrite Hsuf, allBytes_app in Hl. by apply andb_true_iff in Hl as [? _].
Qed.

Ltac bool_cases :=
  repeat match goal with
    | H : context [if ?b then _ else _] |- _ => destruct b eqn:?
    | |- context [if ?b then _ else _] => destruct b eqn:?
    end; simpl in *; try done; try congruence; try lia.

Lemma spaceLen_rune_prefix (e q : string) :
  isSpaceRune e -> spaceLen (e +:+ q) ≠ O.
Proof.
  intros [Hne Hlen].
  destruct e as [|c0 [|c1 [|c2 [|c3 e]]]]; [done|..];
    rewrite ?app_cons; unfold spaceLen in *; simpl in *; bool_cases;
    destruct q; bool_cases.
Qed.

Lemma spaceLenRev_rune_suffix (e q : string) :
  isSpaceRune e -> spaceLenRev (String.rev e +:+ q) ≠ O.
Proof.
  intros [Hne Hlen].
  destruct e as [|c0 [|c1 [|c2 [|c3 e]]]]; [done|..];
    unfold String.rev; simpl String.rev_app; rewrite ?app_cons;
    unfold spaceLen, spaceLenRev in *; simpl in *; bool_cases.
Qed.

Lemma TrimSpace_no_leading_space (s e rest : string) :
  isSpaceRune e -> TrimSpace s ≠ e +:+ rest.
Proof.
  intros He Heq. unfold TrimSpace in Heq.
  destruct (TrimRight_prefix (TrimLeft s)) as [suf Hsuf].
  rewrite Heq, app_assoc in Hsuf.
  apply (spaceLen_rune_prefix e (rest +:+ suf) He).
  rewrite <- Hsuf. by apply dropWhile_head.
Qed.

Lemma TrimSpace_no_trailing_space (s e rest : string) :
  isSpaceRune e -> TrimSpace s ≠ rest +:+ e.
Proof.
  intros He Heq. unfold TrimSpace, TrimRight in Heq.
  apply (spaceLenRev_rune_suffix e (String.rev rest) He).
  rewrite <- rev_append, <- Heq, rev_involutive. by apply dropWhile_head.
Qed.

(** *** Collapsing pairs of spaces *)

Local Abbreviation collapse s := (ReplaceAll s "  " " ").

Lemma collapse_cases (s : string) :
  (s = "" /\ collapse s = "")
  \/ (exists r, s = String " " (String " " r) /\ collapse s = String " " (collapse r))
  \/ (exists c r, s = String c r /\ String.prefix "  " s = false
                  /\ collapse s = String c (collapse r)).
Proof.
  destruct s as [|c r]; [by left|]. right.
  unfold ReplaceAll.
  change (replaceFrom "  " " " 0 (String c r)) with
    (if String.prefix "  " (String c r)
     then " " +:+ replaceFrom "  " " " 1 r
     else String c (replaceFrom "  " " " 0 r)).
  destruct (String.prefix "  " (String c r)) eqn:Hp.
  - left. apply prefix_correct in Hp.
    destruct r as [|c' r']; [discriminate Hp|].
    simpl in Hp. injection Hp as -> -> _. by exists r'.
  - right. by exists c, r.
Qed.

Lemma string_length_ind (P : string -> Prop) :
  (forall s, (forall t, (String.length t < String.length s)%nat -> P t) -> P s) ->
  forall s, P s.
Proof.
  intros H s. remember (String.length s) as n eqn:Hn. revert s Hn.
  induction n as [n IH] using lt_wf_ind. intros s ->.
  apply H. intros t Ht. by eapply IH.
Qed.

Lemma collapse_length (s : string) :
  (String.length (collapse s) <= String.length s)%nat
  /\ (Contains s "  " = true -> (String.length (collapse s) < String.length s)%nat).
Proof.
  induction s as [s IH] using string_length_ind.
  destruct (collapse_cases s) as [[-> ->]|[(r & -> & ->)|(c & r & -> & Hp & ->)]].
  - done.
  - destruct (IH r) as [Hle _]; [simpl; lia|]. simpl. lia.
  - destruct (IH r) as [Hle Hlt]; [simpl; lia|].
    change (Contains (String c r) "  ")
      with (String.prefix "  " (String c r) || Contains r "  ").
    rewrite Hp. simpl. split; [lia|]. intros Hc. specialize (Hlt Hc). lia.
Qed.

Lemma collapse_allBytes (P : ascii -> bool) (s : string) :
  allBytes P s = true -> allBytes P (collapse s) = true.
Proof.
  induction s as [s IH] using string_length_ind.
  destruct (collapse_cases s) as [[-> ->]|[(r & -> & ->)|(c & r & -> & Hp & ->)]].
  - done.
  - simpl. intros [Hc [_ Hr]%andb_true_iff]%andb_true_iff.
    rewrite Hc. apply IH; [simpl; lia|done].
  - simpl. intros [Hc Hr]%andb_true_iff. rewrite Hc. apply IH; [simpl; lia|done].
Qed.

Lemma collapse_empty (s : string) : collapse s = "" -> s = "".
Proof.
  destruct (collapse_cases s) as [[-> _]|[(r & -> & ->)|(c & r & -> & Hp & ->)]];
    [done|discriminate..].
Qed.

Lemma collapse_spaceFree (s : string) :
  spaceFree (collapse s) = true -> collapse s = s.
Proof.
  induction s as [s IH] using string_length_ind.
  destruct (collapse_cases s) as [[-> ->]|[(r & -> & ->)|(c & r & -> & Hp & ->)]].
  - done.
  - discriminate.
  - unfold spaceFree. simpl. intros [_ Hr]%andb_true_iff.
    f_equal. apply IH; [simpl; lia|done].
Qed.

Lemma collapse_keeps_prefix (e : string) :
  e = " " \/ spaceFree e = true ->
  forall s q, collapse s = e +:+ q -> exists q', s = e +:+ q'.
Proof.
  intros [->|He].
  - intros s q.
    destruct (collapse_cases s) as [[-> ->]|[(r & -> & ->)|(c & r & -> & Hp & ->)]].
    + discriminate.
    + intros _. by exists (" " +:+ r).
    + rewrite app_cons. intros [= ->]. by exists r.
  - induction e as [|c e IH]; intros s q.
    { intros _. by exists s. }
    unfold spaceFree in He. simpl in He. apply andb_true_iff in He as [Hc He].
    destruct (collapse_cases s) as [[-> ->]|[(r & -> & ->)|(c0 & r & -> & Hp & ->)]].
    + discriminate.
    + rewrite !app_cons. intros [= <-]. discriminate.
    + rewrite app_cons. intros [= -> Hr].
      destruct (IH He r q Hr) as [q' ->]. by exists q'.
Qed.

Lemma app_eq_nil (p e : string) : p +:+ e = "" -> p = "" /\ e = "".
Proof. destruct p; [done|discriminate]. Qed.

Lemma collapse_keeps_suffix (e : string) :
  e ≠ "" -> e = " " \/ spaceFree e = true ->
  forall s p, collapse s = p +:+ e -> exists p', s = p' +:+ e.
Proof.
  intros Hne He s. induction s as [s IH] using string_length_ind. intros p.
  destruct (collapse_cases s) as [[-> ->]|[(r & -> & ->)|(c & r & -> & Hp & ->)]].
  - intros [_ ->]%eq_sym%app_eq_nil. done.
  - destruct p as [|c p].
    + rewrite app_nil_l. intros Heq. destruct He as [->|He].
      * injection Heq as Hr. apply collapse_empty in Hr as ->. by exists " ".
      * rewrite <- Heq in He. discriminate.
    + rewrite !app_cons. intros [= <- Hr].
      destruct (IH r ltac:(simpl; lia) p Hr) as [p' ->].
      by exists (String " " (String " " p')).
  - destruct p as [|c0 p].
    + rewrite app_nil_l. intros Heq. exists "". rewrite app_nil_l.
      destruct He as [->|He].
      * injection Heq as -> Hr. by apply collapse_empty in Hr as ->.
      * rewrite <- Heq in He |- *. f_equal.
        unfold spaceFree in He. simpl in He. apply andb_true_iff in He as [_ He].
        symmetry. by apply collapse_spaceFree.
    + rewrite app_cons. intros [= <- Hr].
      destruct (IH r ltac:(simpl; lia) p Hr) as [p' ->].
      by exists (String c p').
Qed.

Lemma space_rune_shape (e : string) :
  isSpaceRune e -> e = " " \/ spaceFree e = true.
Proof.
  intros [Hne Hlen].
  destruct e as [|c0 [|c1 [|c2 [|c3 e]]]]; [done|..];
    unfold spaceLen in Hlen; simpl in Hlen; bool_cases.
  - destruct c0 as [[] [] [] [] [] [] [] []]; try discriminate; auto.
  - right. unfold spaceFree, isSpace1, isSpace2, isByte, inRange in *. simpl.
    repeat match goal with
      | H : (_ && _) = true |- _ => apply andb_true_iff in H as [? ?]
      | H : (_ || _) = false |- _ => apply orb_false_iff in H as [? ?]
      | H : (_ =? _)%N = true |- _ => apply N.eqb_eq in H
      | H : (_ =? _)%N = false |- _ => apply N.eqb_neq in H
      end.
    rewrite !andb_true_iff, !negb_true_iff, !N.eqb_neq.
    repeat split; try done.
    match goal with H : (_ || _) = true |- _ =>
      apply orb_true_iff in H as [H%N.eqb_eq|H%N.eqb_eq]; lia end.
  - right. unfold spaceFree, isSpace1, isSpace2, isSpace3, isByte, inRange in *. simpl.
    rewrite !andb_true_iff, !negb_true_iff, !N.eqb_neq.
    match goal with H : _ = true |- _ =>
      rewrite ?orb_true_iff, ?andb_true_iff, ?N.eqb_eq, ?N.leb_le in H end.
    repeat split; intros E32; rewrite ?E32 in *; simpl in *;
      repeat match goal with
        | H : _ \/ _ |- _ => destruct H
        | H : _ /\ _ |- _ => destruct H
        end; try lia.
Qed.

(** *** The loop and the truncation *)

Lemma collapseSpaces_returns (fuel : nat) (s : string) :
  (String.length s <= fuel)%nat -> exists out, collapseSpaces fuel s = Some out.
Proof.
  revert s. induction fuel as [|fuel IH]; intros s Hlen; simpl.
  - destruct s; [|simpl in Hlen; lia]. by exists "".
  - destruct (Contains s "  ") eqn:Hc; [|by exists s].
    apply IH. destruct (collapse_length s) as [_ Hlt]. specialize (Hlt Hc). lia.
Qed.

Lemma collapseSpaces_invariant (I : string -> Prop) (fuel : nat) (s out : string) :
  (forall t, I t -> I (collapse t)) ->
  I s -> collapseSpaces fuel s = Some out -> I out /\ Contains out "  " = false.
Proof.
  intros Hstep. revert s. induction fuel as [|fuel IH]; intros s Hs; simpl;
    destruct (Contains s "  ") eqn:Hc; try discriminate.
  - by intros [= <-].
  - intros Hout. eapply IH; [|exact Hout]. by apply Hstep.
  - by intros [= <-].
Qed.

Lemma length_sliceTo (n : nat) (s : string) :
  (n <= String.length s)%nat -> String.length (sliceTo n s) = n.
Proof.
  unfold sliceTo. revert s. induction n as [|n IH]; intros s Hn.
  - by destruct s.
  - destruct s as [|c r]; simpl in *; [lia|]. rewrite IH; [done|lia].
Qed.

Lemma truncateDescription_length (desc : string) :
  (String.length (truncateDescription desc) <= 200)%nat.
Proof.
  unfold truncateDescription.
  destruct (Nat.ltb_spec 200 (String.length desc)); [|done].
  rewrite length_app, length_sliceTo; [simpl; lia|lia].
Qed.

(** *** The loop computes [squeeze] *)

Lemma squeeze_cons (c : ascii) (x y : string) :
  headOf x = headOf y -> squeeze x = squeeze y ->
  squeeze (String c x) = squeeze (String c y).
Proof.
  destruct x as [|a x], y as [|b y]; simpl; try done.
  intros [= ->] H. change (squeeze (String b x)) with (squeeze (String b x)) in H.
  destruct (Ascii.eqb c " " && Ascii.eqb b " "); [done|by f_equal].
Qed.

Lemma collapse_head (t : string) : headOf (collapse t) = headOf t.
Proof.
  by destruct (collapse_cases t) as [[-> ->]|[(r & -> & ->)|(c & r & -> & _ & ->)]].
Qed.

Lemma squeeze_collapse (t : string) : squeeze (collapse t) = squeeze t.
Proof.
  induction t as [t IH] using string_length_ind.
  destruct (collapse_cases t) as [[-> ->]|[(r & -> & ->)|(c & r & -> & _ & ->)]].
  - done.
  - change (squeeze (String " " (String " " r))) with (squeeze (String " " r)).
    apply squeeze_cons; [apply collapse_head|]. apply IH. simpl. lia.
  - apply squeeze_cons; [apply collapse_head|]. apply IH. simpl. lia.
Qed.

Lemma squeeze_fixed (t : string) : Contains t "  " = false -> squeeze t = t.
Proof.
  induction t as [|c r IH]; [done|].
  change (Contains (String c r) "  ")
    with (String.prefix "  " (String c r) || Contains r "  ").
  intros [Hp Hr]%orb_false_iff. specialize (IH Hr).
  destruct r as [|a r']; [done|].
  change (squeeze (String c (String a r')))
    with (if Ascii.eqb c " " && Ascii.eqb a " " then squeeze (String a r')
          else String c (squeeze (String a r'))).
  destruct (Ascii.eqb_spec c " ") as [->|_]; cbn [andb]; [|by rewrite IH].
  destruct (Ascii.eqb_spec a " ") as [->|_]; [|by rewrite IH].
  exfalso. clear -Hp. destruct r'; vm_compute in Hp; discriminate Hp.
Qed.

Lemma collapseSpaces_squeeze (fuel : nat) (t out : string) :
  collapseSpaces fuel t = Some out -> out = squeeze t.
Proof.
  intros Hout.
  destruct (collapseSpaces_invariant (fun s => squeeze s = squeeze t) fuel t out)
    as [Hsq Hpairs]; [|done|done|].
  - intros s Hs. by rewrite squeeze_collapse.
  - by rewrite <- Hsq, squeeze_fixed.
Qed.

Lemma squeeze_cons_cons (c a : ascii) (r : string) :
  squeeze (String c (String a r))
  = if Ascii.eqb c " " && Ascii.eqb a " " then squeeze (String a r)
    else String c (squeeze (String a r)).
Proof. reflexivity. Qed.

Lemma withoutSpaces_cons (c : ascii) (r : string) :
  withoutSpaces (String c r)
  = if Ascii.eqb c " " then withoutSpaces r else String c (withoutSpaces r).
Proof. reflexivity. Qed.

Lemma withoutSpaces_squeeze (s : string) : withoutSpaces (squeeze s) = withoutSpaces s.
Proof.
  induction s as [|c r IH]; [done|]. destruct r as [|a r']; [done|].
  rewrite squeeze_cons_cons, (withoutSpaces_cons c).
  destruct (Ascii.eqb c " ") eqn:Ec; cbn [andb].
  - destruct (Ascii.eqb a " ") eqn:Ea; [exact IH|].
    rewrite withoutSpaces_cons, Ec. exact IH.
  - rewrite withoutSpaces_cons, Ec. by rewrite IH.
Qed.

(** C9, amended: runs of spaces are collapsed, other white space is not.
    [cleanDescription] returns for every description.  Before its loop the
    text is the trimmed input with every line feed turned into a space and
    every double quote and back quote into an apostrophe.  The result is
    that text with each run of spaces collapsed to one space ([squeeze]):
    its bytes other than spaces are those of that text in their order, and a
    text without two spaces in a row, two tabs in a row for one, comes out as
    it is.  The result holds none of the three replaced bytes and no two
    spaces in a row, and neither starts nor ends with a white space rune.
    The description of a tool is this result when it has at most 200 bytes,
    and otherwise its first 197 bytes followed by three dots, 200 bytes in
    all. *)
Theorem description_is_cleaned (desc : string) :
  exists out,
    cleanDescription desc = Some out
    /\ normalizeDescription desc = TrimSpace (mapBytes cleanByte desc)
    /\ allBytes plainByte out = true
    /\ Contains out newline = false
    /\ Contains out "  " = false
    /\ (forall e rest, isSpaceRune e -> out ≠ e +:+ rest /\ out ≠ rest +:+ e)
    /\ (String.length (truncateDescription out) <= 200)%nat
    /\ ((200 < String.length out)%nat ->
          truncateDescription out = sliceTo 197 out +:+ "..."
          /\ String.length (truncateDescription out) = 200%nat)
    /\ ((String.length out <= 200)%nat -> truncateDescription out = out)
    /\ (forall m : MethodInfo,
          Method_Description (MI_Method m) = desc ->
          MethodInfo_Description m = Some (truncateDescription out))
    /\ out = squeeze (TrimSpace (mapBytes cleanByte desc))
    /\ withoutSpaces out = withoutSpaces (TrimSpace (mapBytes cleanByte desc))
    /\ (Contains (TrimSpace (mapBytes cleanByte desc)) "  " = false ->
        out = TrimSpace (mapBytes cleanByte desc)).
Proof.
  destruct (collapseSpaces_returns (String.length (normalizeDescription desc))
              (normalizeDescription desc)) as [out Hout]; [done|].
  pose proof (collapseSpaces_squeeze _ _ _ Hout) as Hsqueeze.
  rewrite normalizeDescription_bytes in Hsqueeze.
  exists out. split; [done|]. split; [apply normalizeDescription_bytes|].
  assert ((allBytes plainByte out = true
           /\ (forall e rest, isSpaceRune e -> out ≠ e +:+ rest /\ out ≠ rest +:+ e))
          /\ Contains out "  " = false) as [[Hplain Htrim] Hpairs].
  { eapply (collapseSpaces_invariant
              (fun t => allBytes plainByte t = true
                        /\ forall e rest, isSpaceRune e ->
                             t ≠ e +:+ rest /\ t ≠ rest +:+ e)); [| |exact Hout].
    - intros t [Hp Ht]. split; [by apply collapse_allBytes|].
      intros e rest He. pose proof (space_rune_shape e He) as Hshape.
      split; intros Heq.
      + destruct (collapse_keeps_prefix e Hshape t rest Heq) as [q' ->].
        by destruct (Ht e q' He).
      + destruct (collapse_keeps_suffix e (proj1 He) Hshape t rest Heq) as [p' ->].
        by destruct (Ht e p' He).
    - split.
      + rewrite normalizeDescription_bytes.
        apply TrimSpace_allBytes, mapBytes_cleanByte_plain.
      + intros e rest He. split;
          [by apply TrimSpace_no_leading_space|by apply TrimSpace_no_trailing_space]. }
  split; [done|]. split.
  { clear -Hplain. induction out as [|c r IH]; [done|].
    simpl in Hplain. apply andb_true_iff in Hplain as [Hc Hr].
    change (Contains (String c r) newline)
      with (String.prefix newline (String c r) || Contains r newline).
    rewrite (IH Hr), orb_false_r. unfold newline.
    change (String.prefix (String (ascii_of_N 10) "") (String c r))
      with (match ascii_dec (ascii_of_N 10) c with
            | left _ => String.prefix "" r
            | right _ => false
            end).
    destruct (ascii_dec (ascii_of_N 10) c) as [<-|]; [|done].
    by vm_compute in Hc. }
  split; [done|]. split; [done|]. split; [apply truncateDescription_length|].
  split; [|split; [|split; [|split; [|split]]]].
  - intros Hlong. unfold truncateDescription.
    apply Nat.ltb_lt in Hlong as Hb. rewrite Hb. split; [done|].
    rewrite length_app, length_sliceTo; [done|lia].
  - intros Hshort. unfold truncateDescription.
    apply Nat.ltb_ge in Hshort. by rewrite Hshort.
  - intros m <-. unfold MethodInfo_Description.
    unfold cleanDescription in Hout |- *. by rewrite Hout.
  - done.
  - rewrite Hsqueeze. apply withoutSpaces_squeeze.
  - intros Hnone. rewrite Hsqueeze. by apply squeeze_fixed.
Qed.

Lemma description_is_cleaned_witness :
  exists out, cleanDescription "  a   b  " = Some out /\ Contains out "  " = false.
Proof.
  destruct (description_is_cleaned "  a   b  ") as (out & H1 & _ & _ & _ & H5 & _).
  exists out. split; [exact H1|exact H5].
Defined.

(** C9 as stated fails: white space other than the space is not collapsed,
    two tabs in a row stay. *)
Lemma repeated_tabs_are_kept :
  ~ (forall desc out : string,
       cleanDescription desc = Some out ->
       forall p e1 e2 q, isSpaceRune e1 -> isSpaceRune e2 ->
         out ≠ p +:+ e1 +:+ e2 +:+ q).
Proof.
  intros H.
  apply (H ("a" +:+ tab +:+ tab +:+ "b") ("a" +:+ tab +:+ tab +:+ "b")
           eq_refl "a" tab tab "b"); by try split.
Qed.

Lemma collected_schemas_are_the_reachable_ones_witness :
  exists result,
    collectSchemas [methodWith (Some "Labels") (Some "ListResponse")] containerSchemas
      = Some result
    /\ StronglySorted (fun a b => String.ltb a b = true) (SI_Name <$> result).
Proof.
  destruct (collected_schemas_are_the_reachable_ones
              [methodWith (Some "Labels") (Some "ListResponse")] containerSchemas)
    as (result & H1 & _ & H3 & _).
  exists result. split; [exact H1|exact H3].
Defined.

(** ** Determinism *)

(** The sorted views do not depend on the order in which the maps are
    enumerated: method names, collected schemas, parameters and properties
    come out the same for every enumeration of the same entries. *)
Lemma sorted_views_do_not_depend_on_enumeration :
  (forall names names' : list string,
      NoDup names -> names ≡ₚ names' -> sortedKeys names = sortedKeys names')
  /\ (forall (names names' : list string) (all : gmap string Schema),
        NoDup names -> names ≡ₚ names' ->
        schemaInfos names all = schemaInfos names' all)
  /\ (forall (name prefix structPrefix description : string)
             (order : list string) (request response : option string)
             (params params' : list (string * Param)),
        NoDup params.*1 -> params ≡ₚ params' ->
        SortedParams (mkMethodInfo name
                        (mkMethod description params order request response)
                        prefix structPrefix)
        = SortedParams (mkMethodInfo name
                          (mkMethod description params' order request response)
                          prefix structPrefix))
  /\ (forall (s s' : SchemaInfo),
        NoDup (Schema_Properties (SI_Schema s)).*1 ->
        Schema_Properties (SI_Schema s) ≡ₚ Schema_Properties (SI_Schema s') ->
        SI_RequiredSet s = SI_RequiredSet s' ->
        SI_AllSchemas s = SI_AllSchemas s' ->
        SortedProperties s = SortedProperties s').
Proof.
  assert (forall names names' : list string,
            NoDup names -> names ≡ₚ names' -> sortStrings names = sortStrings names')
    as Hkeys.
  { intros names names' Hnd Hp.
    apply (sortBy_order_independent String.ltb id);
      [apply ltb_irrefl|apply ltb_trans|apply ltb_total| |done].
    by rewrite list_fmap_id. }
  split; [exact Hkeys|]. split; [|split].
  - intros names names' all Hnd Hp. unfold schemaInfos. by rewrite (Hkeys _ _ Hnd Hp).
  - intros name prefix structPrefix description order request response params params'
      Hnd Hp. unfold SortedParams. simpl.
    apply (sortBy_order_independent _ PI_Name);
      [apply paramLess_irrefl|apply paramLess_trans|apply paramLess_total| |].
    + rewrite <- list_fmap_compose.
      erewrite list_fmap_ext; [exact Hnd|]. by intros _ [n p] _.
    + by apply fmap_Permutation.
  - intros s s' Hnd Hp Hreq Hall. unfold SortedProperties. rewrite <- Hreq, <- Hall.
    apply (sortBy_order_independent _ Prop_Name);
      [apply propLess_irrefl|apply propLess_trans|apply propLess_total| |].
    + rewrite <- list_fmap_compose.
      erewrite list_fmap_ext; [exact Hnd|]. by intros _ [n p] _.
    + by apply fmap_Permutation.
Qed.

(** C10 at the failing input.  The two documents below are one document in
    two enumeration orders of its [resources] map.  Their sorted method names
    agree, and yet the method stored under the colliding name [a.b.c], and
    with it the generated text, is not the same. *)
Theorem colliding_method_names_depend_on_enumeration :
  Doc_Resources collidingDocumentReordered ≡ₚ Doc_Resources collidingDocument
  /\ NoDup (Doc_Resources collidingDocument).*1
  /\ SortedMethodNames collidingDocument = ["a.b.c"]
  /\ SortedMethodNames collidingDocumentReordered = ["a.b.c"]
  /\ AllMethods collidingDocument !! "a.b.c" = Some (describedMethod "second")
  /\ AllMethods collidingDocumentReordered !! "a.b.c" = Some (describedMethod "first")
  /\ output (GenerateMCPTools renderDescriptions formatNothing
               collidingDocument defaultOptions) = "second"
  /\ output (GenerateMCPTools renderDescriptions formatNothing
               collidingDocumentReordered defaultOptions) = "first".
Proof.
  split; [apply Permutation_swap|].
  split; [apply (bool_decide_unpack _); vm_compute; exact I|].
  repeat split; vm_compute; reflexivity.
Qed.

(** * Further properties of the generator *)

(** ** Parameter order lookup *)

Lemma indexOfFrom_spec (k : Z) (slice : list string) (s : string) :
  ((s ∉ slice) /\ indexOfFrom k slice s = (-1)%Z)
  \/ (exists n : nat,
        indexOfFrom k slice s = (k + Z.of_nat n)%Z
        /\ slice !! n = Some s
        /\ forall j : nat, (j < n)%nat -> slice !! j ≠ Some s).
Proof.
  revert k. induction slice as [|v r IH]; intros k; simpl.
  { left. split; [apply not_elem_of_nil|done]. }
  destruct (String.eqb_spec v s) as [->|Hne].
  - right. exists 0%nat. split; [lia|]. split; [done|]. intros j Hj. lia.
  - destruct (IH (k + 1)%Z) as [[Hnot ->]|(n & -> & Hn & Hfirst)].
    + left. split; [|done]. by apply not_elem_of_cons.
    + right. exists (S n). split; [lia|]. split; [done|].
      intros [|j] Hj; simpl; [congruence|]. apply Hfirst. lia.
Qed.

(** X1.  [indexOf] returns [-1] exactly when the string is not in the
    slice; any other result is the position of its first occurrence, within
    the bounds of the slice. *)
Theorem indexOf_is_first_occurrence (slice : list string) (s : string) :
  (indexOf slice s = (-1)%Z <-> s ∉ slice)
  /\ (forall i : Z, indexOf slice s = i -> i ≠ (-1)%Z ->
        (0 <= i < Z.of_nat (length slice))%Z
        /\ slice !! Z.to_nat i = Some s
        /\ forall j : nat, (j < Z.to_nat i)%nat -> slice !! j ≠ Some s).
Proof.
  unfold indexOf.
  destruct (indexOfFrom_spec 0 slice s) as [[Hnot Hidx]|(n & Hidx & Hn & Hfirst)];
    rewrite Hidx.
  - split; [done|]. intros i <- Hi. done.
  - split.
    + split; [lia|]. intros Hnot. destruct Hnot. by eapply list_elem_of_lookup_2.
    + intros i <- _. rewrite Z.add_0_l, Nat2Z.id.
      apply lookup_lt_Some in Hn as Hlt. repeat split; [lia|lia|done|done].
Qed.

Lemma indexOf_is_first_occurrence_witness :
  (0 <= 1 < Z.of_nat (length ["part"; "id"; "id"]))%Z
  /\ ["part"; "id"; "id"] !! Z.to_nat 1 = Some "id"
  /\ forall j : nat, (j < Z.to_nat 1)%nat -> ["part"; "id"; "id"] !! j ≠ Some "id".
Proof.
  refine (proj2 (indexOf_is_first_occurrence ["part"; "id"; "id"] "id") 1%Z _ _);
    [reflexivity|discriminate].
Defined.

(** ** Type resolution and requiredness *)




(** ** JSON tags *)

Lemma app_not_self (s t : string) : t ≠ "" -> s +:+ t ≠ s.
Proof.
  intros Ht E. apply (f_equal String.length) in E. rewrite length_app in E.
  destruct t; [done|]. simpl in E. lia.
Qed.

(** X3.  The JSON tag of a parameter or a property is its bare name exactly
    when it is required, and the name followed by [,omitempty] otherwise.
    For a boolean parameter that is not repeated the tag carries
    [,omitempty] exactly when the field has the type [*bool]. *)
Theorem json_tag_follows_requiredness :
  (forall p : ParamInfo,
      (ParamInfo_JSONTag p = PI_Name p <-> Param_Required (PI_Param p) = true)
      /\ (ParamInfo_JSONTag p = PI_Name p +:+ ",omitempty"
          <-> Param_Required (PI_Param p) = false))
  /\ (forall p : PropertyInfo,
        (PropertyInfo_JSONTag p = Prop_Name p <-> Prop_Required p = true)
        /\ (PropertyInfo_JSONTag p = Prop_Name p +:+ ",omitempty"
            <-> Prop_Required p = false))
  /\ (forall p : ParamInfo,
        Param_Type (PI_Param p) = "boolean" -> Param_Repeated (PI_Param p) = false ->
        (ParamInfo_GoType p = "*bool"
         <-> ParamInfo_JSONTag p = PI_Name p +:+ ",omitempty")).
Proof.
  split; [|split].
  - intros p. unfold ParamInfo_JSONTag.
    destruct (Param_Required (PI_Param p)); split; split; intros H; try done.
    + by apply eq_sym, app_not_self in H.
    + by apply app_not_self in H.
  - intros p. unfold PropertyInfo_JSONTag.
    destruct (Prop_Required p); split; split; intros H; try done.
    + by apply eq_sym, app_not_self in H.
    + by apply app_not_self in H.
  - intros p Htype Hrep. unfold ParamInfo_GoType, ParamInfo_JSONTag, paramGoType.
    rewrite Hrep, Htype. destruct (Param_Required (PI_Param p)); simpl; split; intros H;
      try done.
    by apply eq_sym, app_not_self in H.
Qed.

Lemma json_tag_follows_requiredness_witness :
  ParamInfo_GoType (mkParamInfo "dryRun" optionalFlag) = "*bool"
  <-> ParamInfo_JSONTag (mkParamInfo "dryRun" optionalFlag) = "dryRun" +:+ ",omitempty".
Proof.
  refine (proj2 (proj2 json_tag_follows_requiredness)
            (mkParamInfo "dryRun" optionalFlag) _ _); reflexivity.
Defined.

(** ** The flattened method map *)

Lemma writeAll_app (acc : gmap string Method) (es1 es2 : list (string * Method)) :
  writeAll acc (es1 ++ es2) = writeAll (writeAll acc es1) es2.
Proof. apply foldl_app. Qed.

Lemma putMethods_writeAll (prefix : string) (l : list (string * Method))
    (acc : gmap string Method) :
  putMethods prefix l acc
  = writeAll acc ((fun '(methodName, m) => (prefix +:+ methodName, m)) <$> l).
Proof.
  unfold putMethods, writeAll. revert acc.
  induction l as [|[n m] l IH]; intros acc; simpl; [done|]. apply IH.
Qed.

Lemma collectMethods_writeAll (prefix : string) (r : Resource)
    (acc : gmap string Method) :
  collectMethods prefix r acc = writeAll acc (resourceEntries prefix r).
Proof.
  revert prefix acc. induction r as [r Hsubs] using Resource_nested_ind.
  intros prefix acc. destruct r as [methods resources]; simpl in *.
  rewrite writeAll_app, putMethods_writeAll.
  generalize (writeAll acc
    ((fun '(methodName, m) => ((prefix +:+ ".") +:+ methodName, m)) <$> methods)).
  induction Hsubs as [|[subName sub] l Hsub _ IH]; intros acc'; simpl in *; [done|].
  by rewrite writeAll_app, Hsub, IH.
Qed.

Lemma AllMethods_writeAll (d : Document) :
  AllMethods d = writeAll ∅ (methodEntries d).
Proof.
  unfold AllMethods, methodEntries. rewrite writeAll_app, putMethods_writeAll.
  generalize (writeAll ∅ ((fun '(name, m) => ("" +:+ name, m)) <$> Doc_Methods d)).
  induction (Doc_Resources d) as [|[rn r] l IH]; intros acc; simpl; [done|].
  by rewrite writeAll_app, collectMethods_writeAll, IH.
Qed.

Lemma writeAll_lookup_inv (acc : gmap string Method)
    (es : list (string * Method)) (k : string) (m : Method) :
  writeAll acc es !! k = Some m -> acc !! k = Some m \/ (k, m) ∈ es.
Proof.
  revert acc. induction es as [|[k' m'] es IH]; intros acc; simpl; [by left|].
  intros [H|H]%IH; [|right; by right].
  destruct (decide (k' = k)) as [->|Hne].
  - rewrite lookup_insert_eq in H. injection H as ->. right. by left.
  - rewrite lookup_insert_ne in H by done. by left.
Qed.

Lemma writeAll_lookup_not_written (acc : gmap string Method)
    (es : list (string * Method)) (k : string) :
  k ∉ es.*1 -> writeAll acc es !! k = acc !! k.
Proof.
  revert acc. induction es as [|[k' m'] es IH]; intros acc; simpl; [done|].
  intros [Hne Hk]%not_elem_of_cons. rewrite IH by done.
  by rewrite lookup_insert_ne.
Qed.

Lemma writeAll_last_wins (acc : gmap string Method)
    (es1 es2 : list (string * Method)) (k : string) (m : Method) :
  k ∉ es2.*1 -> writeAll acc (es1 ++ (k, m) :: es2) !! k = Some m.
Proof.
  intros Hk. rewrite writeAll_app. simpl.
  rewrite writeAll_lookup_not_written by done. apply lookup_insert_eq.
Qed.

Lemma writeAll_is_Some (acc : gmap string Method)
    (es : list (string * Method)) (k : string) :
  is_Some (writeAll acc es !! k) <-> is_Some (acc !! k) \/ k ∈ es.*1.
Proof.
  revert acc. induction es as [|[k' m'] es IH]; intros acc; simpl.
  { split; [by left|]. intros [?|H]; [done|]. by apply elem_of_nil in H. }
  rewrite IH, lookup_insert_is_Some, elem_of_cons. simpl.
  destruct (decide (k' = k)) as [->|Hne]; naive_solver.
Qed.

(** X4.  [AllMethods] is the map written entry by entry from the flattened
    methods of the document.  A name is a key exactly when some method
    flattens to it, the method found under a key is one that flattens to it,
    and when several do it is the one written last.  When no two methods
    flatten to the same name, every method is found under its own dotted
    name.  A method [n] of a top-level resource [rn] flattens to [rn.n]. *)
Theorem AllMethods_holds_the_flattened_methods (d : Document) (k : string) (m : Method) :
  (is_Some (AllMethods d !! k) <-> k ∈ (methodEntries d).*1)
  /\ (AllMethods d !! k = Some m -> (k, m) ∈ methodEntries d)
  /\ (forall es1 es2, methodEntries d = es1 ++ (k, m) :: es2 -> k ∉ es2.*1 ->
        AllMethods d !! k = Some m)
  /\ (NoDup (methodEntries d).*1 -> (k, m) ∈ methodEntries d ->
        AllMethods d !! k = Some m)
  /\ (forall rn r n, (rn, r) ∈ Doc_Resources d -> (n, m) ∈ Resource_Methods r ->
        ((rn +:+ ".") +:+ n, m) ∈ methodEntries d).
Proof.
  rewrite AllMethods_writeAll. split; [|split; [|split; [|split]]].
  - rewrite writeAll_is_Some, lookup_empty. split; [|by right].
    intros [[? ?]|?]; done.
  - intros [H|H]%writeAll_lookup_inv; [by rewrite lookup_empty in H|done].
  - intros es1 es2 -> Hk. by apply writeAll_last_wins.
  - intros Hnd Hin. apply list_elem_of_split in Hin as (es1 & es2 & Heq).
    rewrite Heq in Hnd |- *. apply writeAll_last_wins.
    rewrite fmap_app, fmap_cons in Hnd. apply NoDup_app in Hnd as (_ & _ & Hnd).
    by apply NoDup_cons in Hnd as [? _].
  - intros rn r n Hr Hn. unfold methodEntries. apply elem_of_app. right.
    apply list_elem_of_bind. exists (rn, r). split; [|done].
    destruct r as [methods resources]. simpl in *. apply elem_of_app. left.
    apply list_elem_of_fmap. by exists (n, m).
Qed.

Lemma AllMethods_holds_the_flattened_methods_witness :
  AllMethods videosDocument !! "videos.list" = Some (describedMethod "List videos").
Proof.
  refine (proj1 (proj2 (proj2 (proj2
    (AllMethods_holds_the_flattened_methods videosDocument "videos.list"
       (describedMethod "List videos"))))) _ _).
  - apply (bool_decide_unpack _). vm_compute. exact I.
  - vm_compute. constructor.
Defined.

Lemma elem_of_SortedMethodNames (d : Document) (n : string) :
  n ∈ SortedMethodNames d <-> is_Some (AllMethods d !! n).
Proof.
  unfold SortedMethodNames, sortedKeys, sortStrings.
  rewrite elem_of_sortBy, list_elem_of_fmap. split.
  - intros ([k m] & -> & Hin%elem_of_map_to_list). by eexists.
  - intros [m Hm]. exists (n, m). split; [done|]. by apply elem_of_map_to_list.
Qed.

(** X5.  [SortedMethodNames] lists exactly the keys of [AllMethods], each
    once, in strictly ascending byte order; its length is the size of the
    map. *)
Theorem SortedMethodNames_lists_the_keys (d : Document) :
  StronglySorted (fun a b => String.ltb a b = true) (SortedMethodNames d)
  /\ NoDup (SortedMethodNames d)
  /\ (forall n, n ∈ SortedMethodNames d <-> is_Some (AllMethods d !! n))
  /\ length (SortedMethodNames d) = size (AllMethods d).
Proof.
  unfold SortedMethodNames, sortedKeys.
  pose proof (NoDup_fst_map_to_list (AllMethods d)) as Hnd.
  split; [by apply sortStrings_sorted|]. split; [|split].
  - unfold sortStrings. by rewrite sortBy_Permutation.
  - intros n. apply elem_of_SortedMethodNames.
  - unfold sortStrings. rewrite sortBy_Permutation, length_fmap.
    by rewrite length_map_to_list.
Qed.

(** ** Selecting the methods to generate *)

Lemma selectMethods_found (all : gmap string Method) (prefix structPrefix : string)
    (names : list string) :
  (forall n, n ∈ names -> is_Some (all !! n)) ->
  exists ms,
    selectMethods all prefix structPrefix names = inr ms
    /\ MI_FullName <$> ms = names
    /\ Forall (fun m => all !! MI_FullName m = Some (MI_Method m)
                        /\ MI_Prefix m = prefix /\ MI_StructPrefix m = structPrefix) ms.
Proof.
  induction names as [|n names IH]; intros Hall; simpl.
  { by exists []. }
  destruct (Hall n) as [m Hm]; [by left|]. rewrite Hm.
  destruct IH as (ms & -> & Hnames & Hms).
  { intros n' Hn'. apply Hall. by right. }
  eexists. split; [done|]. split; [by rewrite fmap_cons, Hnames|].
  constructor; [done|done].
Qed.

Lemma selectMethods_first_missing (all : gmap string Method)
    (prefix structPrefix : string) (names : list string) (e : GenError) :
  selectMethods all prefix structPrefix names = inl e ->
  exists before missing after,
    e = MethodNotFound missing
    /\ names = before ++ missing :: after
    /\ all !! missing = None
    /\ forall n, n ∈ before -> is_Some (all !! n).
Proof.
  induction names as [|n names IH]; simpl; [done|].
  destruct (all !! n) as [m|] eqn:Hn.
  - destruct (selectMethods all prefix structPrefix names) as [e'|ms]; [|done].
    intros [= <-]. destruct (IH eq_refl) as (before & missing & after & -> & -> & Hm & Hb).
    exists (n :: before), missing, after. repeat split; [done|].
    intros n' [->|Hn']%elem_of_cons; [by eexists|by apply Hb].
  - intros [= <-]. exists [], n, names. repeat split; [done|].
    intros n' Hn'. by apply elem_of_nil in Hn'.
Qed.

(** X6.  With an explicit list of method names, all of them known, the
    methods are generated in the order of the list, repeated names included,
    each with the method that [AllMethods] has under its name and with the
    effective prefixes.  Otherwise the error names the first name of the
    list that is not known: every name before it was found. *)
Theorem selection_follows_the_list (doc : Document) (opts : GenerateOptions) :
  Opt_Methods opts ≠ [] ->
  ((forall n, n ∈ Opt_Methods opts -> is_Some (AllMethods doc !! n)) ->
   exists ms,
     selectedMethods doc opts = inr ms
     /\ MI_FullName <$> ms = Opt_Methods opts
     /\ Forall (fun m => AllMethods doc !! MI_FullName m = Some (MI_Method m)
                         /\ MI_Prefix m = Opt_Prefix (withDefaults doc opts)
                         /\ MI_StructPrefix m = Opt_StructPrefix (withDefaults doc opts)) ms)
  /\ (forall e, selectedMethods doc opts = inl e ->
        exists before missing after,
          e = MethodNotFound missing
          /\ Opt_Methods opts = before ++ missing :: after
          /\ AllMethods doc !! missing = None
          /\ forall n, n ∈ before -> is_Some (AllMethods doc !! n)).
Proof.
  intros Hne. unfold selectedMethods. simpl.
  destruct (Opt_Methods opts) as [|n names] eqn:Hnames; [done|]. split.
  - intros Hall. by apply selectMethods_found.
  - intros e He. by eapply selectMethods_first_missing.
Qed.

Lemma selection_follows_the_list_witness :
  exists before missing after,
    MethodNotFound "videos.list" = MethodNotFound missing
    /\ Opt_Methods unknownMethodOptions = before ++ missing :: after
    /\ AllMethods emptyDocument !! missing = None
    /\ forall n, n ∈ before -> is_Some (AllMethods emptyDocument !! n).
Proof.
  refine (proj2 (selection_follows_the_list emptyDocument unknownMethodOptions _)
            (MethodNotFound "videos.list") _); [discriminate|reflexivity].
Defined.

(** X7.  Without an explicit list every method of the document is
    generated, in ascending order of the names, each with its own method and
    non-empty prefixes; generation cannot fail with [MethodNotFound]. *)
Theorem default_selection_is_all_methods_sorted
    (Execute : TemplateData -> string + string)
    (formatSource : string -> string + string)
    (doc : Document) (opts : GenerateOptions) :
  Opt_Methods opts = [] ->
  (exists ms,
     selectedMethods doc opts = inr ms
     /\ MI_FullName <$> ms = SortedMethodNames doc
     /\ Forall (fun m => AllMethods doc !! MI_FullName m = Some (MI_Method m)
                         /\ MI_Prefix m ≠ "" /\ MI_StructPrefix m ≠ "") ms)
  /\ (forall name,
        failure (GenerateMCPTools Execute formatSource doc opts)
        ≠ Some (MethodNotFound name)).
Proof.
  intros Hnone.
  destruct (selectMethods_found (AllMethods doc)
              (Opt_Prefix (withDefaults doc opts))
              (Opt_StructPrefix (withDefaults doc opts))
              (SortedMethodNames doc)) as (ms & Hsel & Hnames & Hms).
  { intros n Hn. by apply elem_of_SortedMethodNames. }
  assert (selectedMethods doc opts = inr ms) as Hselected.
  { unfold selectedMethods. simpl. by rewrite Hnone. }
  split.
  - exists ms. split; [done|]. split; [done|].
    eapply Forall_impl; [exact Hms|]. intros m (Hm & -> & ->). split; [done|].
    simpl. split.
    + destruct (Opt_Prefix opts =s "") eqn:E; [|by apply eqb_str_false].
      intros H. apply (f_equal String.length) in H. rewrite length_app in H.
      simpl in H. lia.
    + destruct (Opt_StructPrefix opts =s "") eqn:E; [done|by apply eqb_str_false].
  - intros name. unfold GenerateMCPTools. rewrite Hselected.
    destruct (templateData doc opts ms) as [log data].
    destruct (Execute data) as [cause|buf]; [done|].
    destruct (formatSource buf); done.
Qed.

Lemma default_selection_is_all_methods_sorted_witness :
  exists ms,
    selectedMethods videosDocument defaultOptions = inr ms
    /\ MI_FullName <$> ms = SortedMethodNames videosDocument
    /\ Forall (fun m => AllMethods videosDocument !! MI_FullName m = Some (MI_Method m)
                        /\ MI_Prefix m ≠ "" /\ MI_StructPrefix m ≠ "") ms.
Proof.
  exact (proj1 (default_selection_is_all_methods_sorted renderNothing formatNothing
                  videosDocument defaultOptions eq_refl)).
Defined.

(** ** Outcomes of a run *)

(** X8.  Generation succeeds exactly when every selected method is found,
    the template returns a text and the formatter accepts it; the output is
    then the formatted text. *)
Theorem generation_succeeds_iff
    (Execute : TemplateData -> string + string)
    (formatSource : string -> string + string)
    (doc : Document) (opts : GenerateOptions) :
  failure (GenerateMCPTools Execute formatSource doc opts) = None
  <-> exists ms buf formatted,
        selectedMethods doc opts = inr ms
        /\ Execute (templateData doc opts ms).2 = inr buf
        /\ formatSource buf = inr formatted
        /\ output (GenerateMCPTools Execute formatSource doc opts) = formatted.
Proof.
  unfold GenerateMCPTools.
  destruct (selectedMethods doc opts) as [e|ms] eqn:Hsel.
  { split; [done|]. by intros (? & ? & ? & ? & _). }
  destruct (templateData doc opts ms) as [log data] eqn:Hdata. simpl.
  destruct (Execute data) as [cause|buf] eqn:Hexec.
  { split; [done|]. intros (ms' & ? & ? & [= <-] & Hex & _).
    rewrite Hdata in Hex. simpl in Hex. congruence. }
  destruct (formatSource buf) as [cause|formatted] eqn:Hfmt; simpl.
  { split; [done|]. intros (ms' & buf' & ? & [= <-] & Hex & Hf & _).
    rewrite Hdata in Hex. simpl in Hex. congruence. }
  split; [|done]. intros _. exists ms, buf, formatted.
  rewrite Hdata. by simpl.
Qed.

(** X9.  A run that fails returns a text only when the failure is a syntax
    error of the rendered text, and the text is then what the template
    wrote; for an unknown method and for a template failure the output is
    empty. *)
Theorem only_syntax_errors_keep_the_text
    (Execute : TemplateData -> string + string)
    (formatSource : string -> string + string)
    (doc : Document) (opts : GenerateOptions) (e : GenError) :
  failure (GenerateMCPTools Execute formatSource doc opts) = Some e ->
  (output (GenerateMCPTools Execute formatSource doc opts) = ""
   /\ ((exists name, e = MethodNotFound name) \/ (exists c, e = TemplateExecutionFailed c)))
  \/ (exists ms c,
        selectedMethods doc opts = inr ms
        /\ e = SyntaxErrors c
        /\ Execute (templateData doc opts ms).2
           = inr (output (GenerateMCPTools Execute formatSource doc opts))).
Proof.
  unfold GenerateMCPTools.
  destruct (selectedMethods doc opts) as [e'|ms] eqn:Hsel.
  { simpl. intros [= <-]. left. split; [done|]. left.
    unfold selectedMethods in Hsel.
    apply selectMethods_first_missing in Hsel as (_ & missing & _ & -> & _).
    by exists missing. }
  destruct (templateData doc opts ms) as [log data] eqn:Hdata. simpl.
  destruct (Execute data) as [cause|buf] eqn:Hexec.
  { simpl. intros [= <-]. left. split; [done|]. right. by exists cause. }
  destruct (formatSource buf) as [cause|formatted] eqn:Hfmt; simpl; [|done].
  intros [= <-]. right. exists ms, cause. by rewrite Hdata.
Qed.

Lemma only_syntax_errors_keep_the_text_witness :
  (output (GenerateMCPTools renderNothing formatNothing emptyDocument
             unknownMethodOptions) = ""
   /\ ((exists name, MethodNotFound "videos.list" = MethodNotFound name)
       \/ (exists c, MethodNotFound "videos.list" = TemplateExecutionFailed c)))
  \/ (exists ms c,
        selectedMethods emptyDocument unknownMethodOptions = inr ms
        /\ MethodNotFound "videos.list" = SyntaxErrors c
        /\ renderNothing (templateData emptyDocument unknownMethodOptions ms).2
           = inr (output (GenerateMCPTools renderNothing formatNothing emptyDocument
                            unknownMethodOptions))).
Proof.
  exact (only_syntax_errors_keep_the_text renderNothing formatNothing emptyDocument
           unknownMethodOptions (MethodNotFound "videos.list") eq_refl).
Defined.

(** ** More on the collected schemas *)

Lemma elem_of_schemaInfos (names : list string) (all : gmap string Schema)
    (si : SchemaInfo) :
  si ∈ schemaInfos names all
  <-> exists schema, SI_Name si ∈ names /\ all !! SI_Name si = Some schema
                     /\ si = NewSchemaInfo (SI_Name si) schema all.
Proof.
  unfold schemaInfos. rewrite list_elem_of_omap. split.
  - intros (n & Hn%elem_of_sortBy & Hsi).
    destruct (all !! n) as [schema|] eqn:E; [|done]. injection Hsi as <-.
    by exists schema.
  - intros (schema & Hn & Hs & ->). exists (SI_Name (NewSchemaInfo (SI_Name si) schema all)).
    simpl. split; [by apply elem_of_sortBy|]. by rewrite Hs.
Qed.

Lemma collectSchemas_elem (ms : list MethodInfo) (all : gmap string Schema)
    (result : list SchemaInfo) (si : SchemaInfo) :
  collectSchemas ms all = Some result ->
  si ∈ result
  <-> exists schema, reachable all ms (SI_Name si) /\ all !! SI_Name si = Some schema
                     /\ si = NewSchemaInfo (SI_Name si) schema all.
Proof.
  destruct (collectSchemas_names ms all) as (needed & result' & Hc & Hr & _ & Hreach).
  rewrite Hr. intros [= <-]. unfold collectSchemas in Hr. rewrite Hc in Hr.
  injection Hr as <-. rewrite elem_of_schemaInfos.
  by setoid_rewrite elem_of_elements; setoid_rewrite Hreach.
Qed.

Lemma occurs_nonempty (n : string) (s : Schema) : occurs n s -> n ≠ "".
Proof. by induction 1. Qed.

(** X10.  The collected schemas are closed under their references: when a
    collected schema mentions a schema of the mapping, in a property, its
    items or its additional properties, that schema is collected too, and a
    node that refers to it resolves either to the pointer to the struct
    declared for it or, for a scalar wrapper, to its scalar type. *)
Theorem collected_schemas_are_closed
    (ms : list MethodInfo) (all : gmap string Schema) (result : list SchemaInfo)
    (si : SchemaInfo) (n : string) :
  collectSchemas ms all = Some result ->
  si ∈ result -> mentions (SI_Schema si) n -> is_Some (all !! n) ->
  exists si',
    si' ∈ result /\ SI_Name si' = n /\ all !! n = Some (SI_Schema si')
    /\ forall (node : Schema) (optional : bool),
         Schema_Ref node = n ->
         resolveType all node optional = "*" +:+ SchemaInfo_StructName si'
         \/ resolveType all node optional
            = scalarGoType (Schema_Type (SI_Schema si')) (Schema_Format (SI_Schema si'))
                optional.
Proof.
  intros Hr Hsi Hment [target Htarget].
  apply (collectSchemas_elem _ _ _ _ Hr) in Hsi as (schema & Hreach & Hlook & Hsi).
  assert (SI_Schema si = schema) as Hschema by (by rewrite Hsi).
  exists (NewSchemaInfo n target all). split; [|split; [done|split; [done|]]].
  - apply (collectSchemas_elem _ _ _ _ Hr). exists target. simpl. split; [|done].
    destruct Hreach as (r & Hr0 & Hsome & Hrtc). exists r. split; [done|]. split; [done|].
    eapply rtc_r; [exact Hrtc|]. exists schema. rewrite <- Hschema.
    split; [by rewrite Hschema|]. split; [done|]. by eexists.
  - intros node optional Href. rewrite resolveType_unfold, Href.
    assert (n ≠ "") as Hne%eqb_str_false.
    { destruct Hment as [(k & p & _ & Ho)|[(i & _ & Ho)|(a & _ & Ho)]];
        by eapply occurs_nonempty. }
    rewrite Hne, Htarget. simpl.
    destruct (negb (Schema_Type target =s "") && negb (Schema_Type target =s "object")
              && negb (Schema_Type target =s "array")); [by right|by left].
Qed.

Lemma collected_schemas_are_closed_witness :
  exists si',
    si' ∈ schemaInfos ["Label"; "Labels"; "ListResponse"; "Video"] containerSchemas
    /\ SI_Name si' = "Video"
    /\ containerSchemas !! "Video" = Some (SI_Schema si')
    /\ forall (node : Schema) (optional : bool),
         Schema_Ref node = "Video" ->
         resolveType containerSchemas node optional = "*" +:+ SchemaInfo_StructName si'
         \/ resolveType containerSchemas node optional
            = scalarGoType (Schema_Type (SI_Schema si')) (Schema_Format (SI_Schema si'))
                optional.
Proof.
  refine (collected_schemas_are_closed
            [methodWith (Some "Labels") (Some "ListResponse")] containerSchemas
            (schemaInfos ["Label"; "Labels"; "ListResponse"; "Video"] containerSchemas)
            (NewSchemaInfo "ListResponse" (arrayOf (refSchema "Video")) containerSchemas)
            "Video" _ _ _ _).
  - vm_compute. reflexivity.
  - vm_compute. do 2 right. left.
  - right. left. exists (refSchema "Video"). split; [reflexivity|].
    by apply occurs_ref.
  - by eexists.
Defined.

Lemma reachable_mono (all : gmap string Schema) (ms ms' : list MethodInfo) (x : string) :
  (forall r, r ∈ methodRefs ms -> r ∈ methodRefs ms') ->
  reachable all ms x -> reachable all ms' x.
Proof. intros Hsub (r & Hr & Hsome & Hrtc). exists r. auto. Qed.

Lemma collectSchemas_respects_refs (all : gmap string Schema) (ms ms' : list MethodInfo) :
  (forall r, r ∈ methodRefs ms <-> r ∈ methodRefs ms') ->
  collectSchemas ms all = collectSchemas ms' all.
Proof.
  intros Hrefs.
  destruct (collectSchemas_names ms all) as (needed & result & Hc & Hr & _ & Hreach).
  destruct (collectSchemas_names ms' all) as (needed' & result' & Hc' & Hr' & _ & Hreach').
  assert (needed = needed') as Heq.
  { apply leibniz_equiv, set_equiv. intros x. rewrite Hreach, Hreach'.
    split; apply reachable_mono; intros r; apply Hrefs. }
  unfold collectSchemas. by rewrite Hc, Hc', Heq.
Qed.

(** X11.  What is collected depends only on the set of request and response
    references of the selected methods: the order of the methods and
    repeated methods make no difference, methods without references collect
    nothing, and selecting more methods never drops a schema. *)
Theorem collected_schemas_depend_on_the_references
    (all : gmap string Schema) (ms : list MethodInfo) :
  (forall ms', ms ≡ₚ ms' -> collectSchemas ms all = collectSchemas ms' all)
  /\ collectSchemas (ms ++ ms) all = collectSchemas ms all
  /\ (methodRefs ms = [] -> collectSchemas ms all = Some [])
  /\ (forall extra, exists result result',
        collectSchemas ms all = Some result
        /\ collectSchemas (ms ++ extra) all = Some result'
        /\ forall si, si ∈ result -> si ∈ result').
Proof.
  split; [|split; [|split]].
  - intros ms' Hp. apply collectSchemas_respects_refs. intros r.
    unfold methodRefs. by rewrite Hp.
  - apply collectSchemas_respects_refs. intros r.
    unfold methodRefs. rewrite bind_app, elem_of_app. tauto.
  - intros Hnone. rewrite (collectSchemas_respects_refs all ms []); [done|].
    intros r. by rewrite Hnone.
  - intros extra.
    destruct (collectSchemas_names ms all) as (? & result & _ & Hr & _).
    destruct (collectSchemas_names (ms ++ extra) all) as (? & result' & _ & Hr' & _).
    exists result, result'. split; [done|]. split; [done|]. intros si.
    rewrite (collectSchemas_elem _ _ _ _ Hr), (collectSchemas_elem _ _ _ _ Hr').
    intros (schema & Hreach & Hs). exists schema. split; [|done].
    eapply reachable_mono; [|exact Hreach]. intros r.
    unfold methodRefs. rewrite bind_app, elem_of_app. tauto.
Qed.

Lemma collected_schemas_depend_on_the_references_witness :
  collectSchemas [methodWith None None] containerSchemas = Some [].
Proof.
  refine (proj1 (proj2 (proj2 (collected_schemas_depend_on_the_references
            containerSchemas [methodWith None None]))) _).
  reflexivity.
Defined.

(** X12.  A node whose [$ref] names no schema of the mapping still resolves
    to the pointer type made from the exported form of that name, while no
    collected schema has that name. *)
Theorem dangling_reference_resolves_to_pointer_type
    (all : gmap string Schema) (node : Schema) (optional : bool)
    (ms : list MethodInfo) (result : list SchemaInfo) :
  Schema_Ref node ≠ "" ->
  all !! Schema_Ref node = None ->
  collectSchemas ms all = Some result ->
  resolveType all node optional = "*" +:+ exportedName (Schema_Ref node)
  /\ forall si, si ∈ result -> SI_Name si ≠ Schema_Ref node.
Proof.
  intros Hne%eqb_str_false Hnone Hr. split.
  - by rewrite resolveType_unfold, Hne, Hnone.
  - intros si (schema & _ & Hlook & _)%(collectSchemas_elem _ _ _ _ Hr) Heq.
    rewrite Heq in Hlook. congruence.
Qed.

Lemma dangling_reference_resolves_to_pointer_type_witness :
  resolveType cyclicSchemas (refSchema "Missing") true = "*" +:+ exportedName "Missing"
  /\ forall si, si ∈ schemaInfos ["Node"] cyclicSchemas -> SI_Name si ≠ "Missing".
Proof.
  refine (dangling_reference_resolves_to_pointer_type cyclicSchemas
            (refSchema "Missing") true [methodWith None (Some "Node")]
            (schemaInfos ["Node"] cyclicSchemas) _ _ _);
    [discriminate|reflexivity|vm_compute; reflexivity].
Defined.

(** The struct behind such a pointer can still be declared, for another
    schema whose name has the same exported form: with only [Node] in the
    mapping, a reference to [node] resolves to the struct declared for
    [Node]. *)
Example dangling_reference_can_share_a_struct_name :
  cyclicSchemas !! "node" = None
  /\ resolveType cyclicSchemas (refSchema "node") true = "*Node"
  /\ exists si, si ∈ schemaInfos ["Node"] cyclicSchemas
                /\ SI_Name si = "Node"
                /\ SchemaInfo_StructName si = "Node".
Proof.
  split; [reflexivity|]. split; [reflexivity|].
  eexists. split; [apply list_elem_of_here|]. split; reflexivity.
Qed.

Lemma sorted_views_do_not_depend_on_enumeration_witness :
  sortedKeys ["videos.list"; "channels.list"] = sortedKeys ["channels.list"; "videos.list"].
Proof.
  refine (proj1 sorted_views_do_not_depend_on_enumeration
            ["videos.list"; "channels.list"] ["channels.list"; "videos.list"] _ _).
  - apply (bool_decide_unpack _). vm_compute. exact I.
  - apply Permutation_swap.
Defined.

(** ** More on descriptions *)

Lemma cleanDescription_facts (desc out : string) :
  cleanDescription desc = Some out ->
  allBytes plainByte out = true
  /\ (forall e rest, isSpaceRune e -> out ≠ e +:+ rest /\ out ≠ rest +:+ e)
  /\ Contains out "  " = false
  /\ (String.length out <= String.length desc)%nat.
Proof.
  unfold cleanDescription. intros Hout.
  assert ((allBytes plainByte out = true
           /\ (forall e rest, isSpaceRune e -> out ≠ e +:+ rest /\ out ≠ rest +:+ e)
           /\ (String.length out <= String.length (normalizeDescription desc))%nat)
          /\ Contains out "  " = false) as [(Hplain & Htrim & Hlen) Hpairs].
  { eapply (collapseSpaces_invariant
              (fun t => allBytes plainByte t = true
                        /\ (forall e rest, isSpaceRune e ->
                              t ≠ e +:+ rest /\ t ≠ rest +:+ e)
                        /\ (String.length t
                            <= String.length (normalizeDescription desc))%nat));
      [| |exact Hout].
    - intros t (Hp & Ht & Hl). split; [by apply collapse_allBytes|]. split.
      + intros e rest He. pose proof (space_rune_shape e He) as Hshape.
        split; intros Heq.
        * destruct (collapse_keeps_prefix e Hshape t rest Heq) as [q' ->].
          by destruct (Ht e q' He).
        * destruct (collapse_keeps_suffix e (proj1 He) Hshape t rest Heq) as [p' ->].
          by destruct (Ht e p' He).
      + destruct (collapse_length t) as [Hle _]. lia.
    - split; [|split; [|done]].
      + rewrite normalizeDescription_bytes.
        apply TrimSpace_allBytes, mapBytes_cleanByte_plain.
      + intros e rest He. split;
          [by apply TrimSpace_no_leading_space|by apply TrimSpace_no_trailing_space]. }
  split; [done|]. split; [done|]. split; [done|].
  etrans; [exact Hlen|]. rewrite normalizeDescription_bytes. unfold TrimSpace.
  destruct (TrimRight_prefix (TrimLeft (mapBytes cleanByte desc))) as [suf Hsuf].
  destruct (dropWhile_suffix spaceLen O (mapBytes cleanByte desc)) as [pre Hpre].
  fold (TrimLeft (mapBytes cleanByte desc)) in Hpre.
  assert (String.length (mapBytes cleanByte desc) = String.length desc) as Hmap.
  { clear. induction desc as [|c r IH]; [done|]. simpl. by rewrite IH. }
  apply (f_equal String.length) in Hsuf, Hpre. rewrite length_app in Hsuf, Hpre. lia.
Qed.

Lemma space_rune_1 (c0 : ascii) :
  isSpace1 (byte c0) = true -> isSpaceRune (String c0 "").
Proof. intros H. split; [done|]. unfold spaceLen. by rewrite H. Qed.

Lemma space_rune_2 (c0 c1 : ascii) :
  isSpace2 (byte c0) (byte c1) = true -> isSpaceRune (String c0 (String c1 "")).
Proof.
  intros H. split; [done|]. unfold spaceLen. rewrite H.
  unfold isSpace2 in H. apply andb_true_iff in H as [H0%N.eqb_eq _].
  by rewrite H0.
Qed.

Lemma space_rune_3 (c0 c1 c2 : ascii) :
  isSpace3 (byte c0) (byte c1) (byte c2) = true ->
  isSpaceRune (String c0 (String c1 (String c2 ""))).
Proof.
  intros H. split; [done|]. unfold spaceLen. rewrite H.
  assert (byte c0 = 225 \/ byte c0 = 226 \/ byte c0 = 227)%N as Hlead.
  { unfold isSpace3 in H.
    repeat match goal with
      | H : (_ || _) = true |- _ => apply orb_true_iff in H as [H|H]
      | H : (_ && _) = true |- _ => apply andb_true_iff in H as [H _]
      end; apply N.eqb_eq in H; auto. }
  by destruct Hlead as [->|[->| ->]].
Qed.

Lemma spaceLen_rune (s : string) :
  spaceLen s ≠ O -> exists e rest, isSpaceRune e /\ s = e +:+ rest.
Proof.
  intros H. destruct s as [|c0 r0]; [done|].
  destruct (isSpace1 (byte c0)) eqn:E1.
  { exists (String c0 ""), r0. split; [by apply space_rune_1|done]. }
  destruct r0 as [|c1 r1]; [unfold spaceLen in H; by rewrite E1 in H|].
  destruct (isSpace2 (byte c0) (byte c1)) eqn:E2.
  { exists (String c0 (String c1 "")), r1. split; [by apply space_rune_2|done]. }
  destruct r1 as [|c2 r2]; [unfold spaceLen in H; by rewrite E1, E2 in H|].
  destruct (isSpace3 (byte c0) (byte c1) (byte c2)) eqn:E3.
  { exists (String c0 (String c1 (String c2 ""))), r2.
    split; [by apply space_rune_3|done]. }
  unfold spaceLen in H. by rewrite E1, E2, E3 in H.
Qed.

Lemma spaceLenRev_rune (t : string) :
  spaceLenRev t ≠ O -> exists e rest, isSpaceRune e /\ t = String.rev e +:+ rest.
Proof.
  intros H. destruct t as [|c0 r0]; [done|].
  destruct (isSpace1 (byte c0)) eqn:E1.
  { exists (String c0 ""), r0. split; [by apply space_rune_1|done]. }
  destruct r0 as [|c1 r1]; [unfold spaceLenRev in H; by rewrite E1 in H|].
  destruct (isSpace2 (byte c1) (byte c0)) eqn:E2.
  { exists (String c1 (String c0 "")), r1. split; [by apply space_rune_2|done]. }
  destruct r1 as [|c2 r2]; [unfold spaceLenRev in H; by rewrite E1, E2 in H|].
  destruct (isSpace3 (byte c2) (byte c1) (byte c0)) eqn:E3.
  { exists (String c2 (String c1 (String c0 ""))), r2.
    split; [by apply space_rune_3|done]. }
  unfold spaceLenRev in H. by rewrite E1, E2, E3 in H.
Qed.

Lemma dropWhile_fixed (w : string -> nat) (s : string) :
  w s = O -> dropWhile w O s = s.
Proof. intros H. destruct s as [|c r]; [done|]. simpl. by rewrite H. Qed.

Lemma TrimSpace_fixed (s : string) :
  (forall e rest, isSpaceRune e -> s ≠ e +:+ rest /\ s ≠ rest +:+ e) ->
  TrimSpace s = s.
Proof.
  intros Hs. unfold TrimSpace, TrimLeft, TrimRight.
  rewrite (dropWhile_fixed spaceLen s).
  - rewrite dropWhile_fixed; [apply rev_involutive|].
    destruct (spaceLenRev (String.rev s)) eqn:E; [done|].
    destruct (spaceLenRev_rune (String.rev s)) as (e & rest & He & Heq); [lia|].
    apply (f_equal String.rev) in Heq.
    rewrite rev_involutive, rev_append, rev_involutive in Heq.
    by destruct (Hs e (String.rev rest) He).
  - destruct (spaceLen s) eqn:E; [done|].
    destruct (spaceLen_rune s) as (e & rest & He & Heq); [lia|].
    by destruct (Hs e rest He).
Qed.

Lemma mapBytes_cleanByte_fixed (s : string) :
  allBytes plainByte s = true -> mapBytes cleanByte s = s.
Proof.
  induction s as [|c r IH]; [done|]. simpl. intros [Hc Hr]%andb_true_iff.
  rewrite (IH Hr). f_equal. revert Hc.
  destruct c as [[] [] [] [] [] [] [] []]; vm_compute; congruence.
Qed.

(** X13.  Cleaning is idempotent: a description that [cleanDescription]
    returned is returned unchanged when it is cleaned again. *)
Theorem cleanDescription_is_idempotent (desc out : string) :
  cleanDescription desc = Some out -> cleanDescription out = Some out.
Proof.
  intros (Hplain & Htrim & Hpairs & _)%cleanDescription_facts.
  unfold cleanDescription.
  rewrite normalizeDescription_bytes, (mapBytes_cleanByte_fixed _ Hplain),
    (TrimSpace_fixed _ Htrim).
  destruct (String.length out); simpl; by rewrite Hpairs.
Qed.

Lemma cleanDescription_is_idempotent_witness :
  cleanDescription "a b" = Some "a b".
Proof.
  refine (cleanDescription_is_idempotent "  a   b  " "a b" _). reflexivity.
Defined.

(** X14.  A cleaned description is never longer than the description it was
    made from, and the description of a tool is never longer than the
    cleaned description. *)
Theorem cleaning_never_lengthens (m : MethodInfo) (out : string) :
  cleanDescription (Method_Description (MI_Method m)) = Some out ->
  (String.length out <= String.length (Method_Description (MI_Method m)))%nat
  /\ exists short,
       MethodInfo_Description m = Some short
       /\ (String.length short <= String.length out)%nat.
Proof.
  intros Hout. split; [by apply cleanDescription_facts in Hout as (_ & _ & _ & ?)|].
  unfold MethodInfo_Description. rewrite Hout. simpl. eexists. split; [done|].
  unfold truncateDescription.
  destruct (Nat.ltb_spec 200 (String.length out)); [|done].
  rewrite length_app, length_sliceTo; [simpl; lia|lia].
Qed.

Lemma cleaning_never_lengthens_witness :
  (String.length "List videos" <= String.length " List   videos ")%nat
  /\ exists short,
       MethodInfo_Description
         (mkMethodInfo "videos.list" (describedMethod " List   videos ") "" "API")
       = Some short
       /\ (String.length short <= String.length "List videos")%nat.
Proof.
  refine (cleaning_never_lengthens
            (mkMethodInfo "videos.list" (describedMethod " List   videos ") "" "API")
            "List videos" _).
  reflexivity.
Defined.

(** ** Schema descriptions *)

Lemma Join_allBytes (P : ascii -> bool) (l : list string) (sep : string) :
  allBytes P sep = true -> Forall (fun s => allBytes P s = true) l ->
  allBytes P (Join l sep) = true.
Proof.
  intros Hsep Hl. induction Hl as [|x l Hx Hl IH]; [done|].
  destruct l as [|y l]; [done|].
  change (Join (x :: y :: l) sep) with (x +:+ sep +:+ Join (y :: l) sep).
  by rewrite !allBytes_app, Hx, Hsep, IH.
Qed.

Lemma withEnumAndDefault_plain (desc : string) (enum : list string) (default : string) :
  allBytes plainByte desc = true ->
  Forall (fun v => allBytes plainByte v = true) enum ->
  allBytes plainByte default = true ->
  allBytes plainByte (withEnumAndDefault desc enum default) = true.
Proof.
  intros Hd He Hdef. unfold withEnumAndDefault.
  assert (allBytes plainByte (Join enum ", ") = true) as Hjoin
    by (by apply Join_allBytes).
  repeat match goal with
    | |- context [if ?b then _ else _] => destruct b
    end; rewrite ?allBytes_app, ?Hd, ?Hjoin, ?Hdef; done.
Qed.

Lemma withEnumAndDefault_prefix (desc : string) (enum : list string) (default : string) :
  exists rest, withEnumAndDefault desc enum default = desc +:+ rest.
Proof.
  unfold withEnumAndDefault.
  repeat match goal with
    | |- context [if ?b then _ else _] => destruct b
    end; rewrite ?app_assoc; eauto using eq_sym, app_nil_r.
Qed.

Lemma withEnumAndDefault_eq (desc : string) (enum : list string) (default : string) :
  withEnumAndDefault desc enum default
  = desc +:+ (match enum with
              | [] => ""
              | _ :: _ => (if desc =s "" then "" else " ")
                          +:+ "Values: " +:+ Join enum ", "
              end)
         +:+ (if default =s "" then "" else " (default: " +:+ default +:+ ")").
Proof.
  unfold withEnumAndDefault.
  destruct enum as [|v vs]; cbn [length Nat.ltb Nat.leb];
    destruct (desc =s ""), (default =s ""); cbn [negb];
    rewrite ?app_assoc, ?app_nil_l, ?app_nil_r; reflexivity.
Qed.

(** X15.  The schema description of a parameter or a property is its
    cleaned description followed, when there are enum values, by [Values: ]
    and the values joined by a comma and a space (after a space when the
    cleaned description is not empty), then, when there is a default, by
    [ (default: ], the default and [)], and for a read-only property by
    [ (read-only)].  The values and the default are appended as they are:
    when they hold no line feed, double quote or back quote, neither does
    the schema description. *)
Theorem schema_description_extends_the_cleaned_one :
  (forall p : ParamInfo,
      exists cleaned rest,
        cleanDescription (Param_Description (PI_Param p)) = Some cleaned
        /\ ParamInfo_SchemaDescription p = Some (cleaned +:+ rest)
        /\ (Param_Enum (PI_Param p) = [] -> Param_Default (PI_Param p) = "" ->
            rest = "")
        /\ (Forall (fun v => allBytes plainByte v = true) (Param_Enum (PI_Param p)) ->
            allBytes plainByte (Param_Default (PI_Param p)) = true ->
            allBytes plainByte (cleaned +:+ rest) = true)
        /\ rest
           = (match Param_Enum (PI_Param p) with
              | [] => ""
              | _ :: _ => (if cleaned =s "" then "" else " ")
                          +:+ "Values: " +:+ Join (Param_Enum (PI_Param p)) ", "
              end)
             +:+ (if Param_Default (PI_Param p) =s "" then ""
                  else " (default: " +:+ Param_Default (PI_Param p) +:+ ")"))
  /\ (forall p : PropertyInfo,
        exists cleaned rest,
          cleanDescription (Schema_Description (Prop_Property p)) = Some cleaned
          /\ PropertyInfo_SchemaDescription p = Some (cleaned +:+ rest)
          /\ (Schema_Enum (Prop_Property p) = [] ->
              Schema_Default (Prop_Property p) = "" ->
              Schema_ReadOnly (Prop_Property p) = false -> rest = "")
          /\ (Forall (fun v => allBytes plainByte v = true)
                (Schema_Enum (Prop_Property p)) ->
              allBytes plainByte (Schema_Default (Prop_Property p)) = true ->
              allBytes plainByte (cleaned +:+ rest) = true)
          /\ rest
             = (match Schema_Enum (Prop_Property p) with
                | [] => ""
                | _ :: _ => (if cleaned =s "" then "" else " ")
                            +:+ "Values: " +:+ Join (Schema_Enum (Prop_Property p)) ", "
                end)
               +:+ (if Schema_Default (Prop_Property p) =s "" then ""
                    else " (default: " +:+ Schema_Default (Prop_Property p) +:+ ")")
               +:+ (if Schema_ReadOnly (Prop_Property p) then " (read-only)" else "")).
Proof.
  split.
  - intros p. unfold ParamInfo_SchemaDescription.
    destruct (collapseSpaces_returns
                (String.length (normalizeDescription (Param_Description (PI_Param p))))
                (normalizeDescription (Param_Description (PI_Param p))))
      as [cleaned Hc]; [done|].
    fold (cleanDescription (Param_Description (PI_Param p))) in Hc. rewrite Hc. simpl.
    pose proof (withEnumAndDefault_eq cleaned (Param_Enum (PI_Param p))
                  (Param_Default (PI_Param p))) as Heq.
    eexists cleaned, _. split; [done|]. split; [by rewrite Heq|].
    split; [|split; [|reflexivity]].
    + intros -> ->. reflexivity.
    + intros He Hd. rewrite <- Heq. apply withEnumAndDefault_plain; [|done|done].
      by apply cleanDescription_facts in Hc as (? & _).
  - intros p. unfold PropertyInfo_SchemaDescription.
    destruct (collapseSpaces_returns
                (String.length (normalizeDescription (Schema_Description (Prop_Property p))))
                (normalizeDescription (Schema_Description (Prop_Property p))))
      as [cleaned Hc]; [done|].
    fold (cleanDescription (Schema_Description (Prop_Property p))) in Hc. rewrite Hc. simpl.
    pose proof (withEnumAndDefault_eq cleaned (Schema_Enum (Prop_Property p))
                  (Schema_Default (Prop_Property p))) as Heq.
    eexists cleaned, _. split; [|split; [|split; [|split; [|reflexivity]]]].
    + done.
    + rewrite Heq. destruct (Schema_ReadOnly (Prop_Property p)).
      * by rewrite !app_assoc.
      * by rewrite app_nil_r.
    + intros -> -> ->. reflexivity.
    + intros He Hd.
      assert (allBytes plainByte
                (withEnumAndDefault cleaned (Schema_Enum (Prop_Property p))
                   (Schema_Default (Prop_Property p))) = true) as Hplain.
      { apply withEnumAndDefault_plain; [|done|done].
        by apply cleanDescription_facts in Hc as (? & _). }
      rewrite Heq in Hplain. rewrite !allBytes_app in Hplain |- *.
      apply andb_true_iff in Hplain as [H1 [H2 H3]%andb_true_iff].
      rewrite H1, H2, allBytes_app, H3.
      by destruct (Schema_ReadOnly (Prop_Property p)).
Qed.

Lemma schema_description_extends_the_cleaned_one_witness :
  exists cleaned rest,
    cleanDescription (Param_Description (PI_Param (mkParamInfo "order" enumParam)))
      = Some cleaned
    /\ ParamInfo_SchemaDescription (mkParamInfo "order" enumParam) = Some (cleaned +:+ rest)
    /\ allBytes plainByte (cleaned +:+ rest) = true.
Proof.
  destruct (proj1 schema_description_extends_the_cleaned_one (mkParamInfo "order" enumParam))
    as (cleaned & rest & H1 & H2 & _ & H4 & _).
  exists cleaned, rest. split; [exact H1|]. split; [exact H2|].
  apply H4; [|reflexivity]. repeat constructor.
Defined.

(** ** The method listing of the command *)

Lemma length_mapBytes (f : ascii -> ascii) (s : string) :
  String.length (mapBytes f s) = String.length s.
Proof. induction s as [|c r IH]; [done|]. simpl. by rewrite IH. Qed.

Lemma allBytes_mapBytes (P : ascii -> bool) (f : ascii -> ascii) (s : string) :
  (forall c, P (f c) = true) -> allBytes P (mapBytes f s) = true.
Proof. intros H. induction s as [|c r IH]; [done|]. simpl. by rewrite H, IH. Qed.

Lemma mapBytes_fixed (Q : ascii -> bool) (f : ascii -> ascii) (s : string) :
  allBytes Q s = true -> (forall c, Q c = true -> f c = c) -> mapBytes f s = s.
Proof.
  intros Hs H. induction s as [|c r IH]; [done|]. simpl in *.
  apply andb_true_iff in Hs as [Hc Hr]. by rewrite (H c Hc), (IH Hr).
Qed.

(** X16.  The description column of the method listing has at most 80
    bytes and no line feed; a description of at most 80 bytes without line
    feed is listed as it is. *)
Theorem listing_description_fits_one_line (desc : string) :
  (String.length (listingDescription desc) <= 80)%nat
  /\ allBytes (fun c => negb (isByte 10 c)) (listingDescription desc) = true
  /\ ((String.length desc <= 80)%nat ->
      allBytes (fun c => negb (isByte 10 c)) desc = true ->
      listingDescription desc = desc).
Proof.
  unfold listingDescription, newline. rewrite ReplaceAll_byte, length_mapBytes.
  split; [|split].
  - destruct (Nat.ltb_spec 80 (String.length desc)); [|done].
    rewrite length_app, length_sliceTo; [simpl; lia|lia].
  - apply allBytes_mapBytes. intros c.
    destruct c as [[] [] [] [] [] [] [] []]; reflexivity.
  - intros Hlen Hplain. apply Nat.ltb_ge in Hlen. rewrite Hlen.
    apply (mapBytes_fixed _ _ _ Hplain). intros c.
    destruct c as [[] [] [] [] [] [] [] []]; vm_compute; congruence.
Qed.

Lemma listing_description_fits_one_line_witness :
  listingDescription "List videos" = "List videos".
Proof.
  refine (proj2 (proj2 (listing_description_fits_one_line "List videos")) _ _);
    [vm_compute; lia|reflexivity].
Defined.

(** ** Tool names *)

Lemma replace_dot_injective (s s' : string) :
  allBytes (fun c => negb (isByte 95 c)) s = true ->
  allBytes (fun c => negb (isByte 95 c)) s' = true ->
  ReplaceAll s "." "_" = ReplaceAll s' "." "_" -> s = s'.
Proof.
  rewrite !ReplaceAll_byte. revert s'.
  induction s as [|c r IH]; intros [|c' r']; simpl; try done.
  intros [Hc Hr]%andb_true_iff [Hc' Hr']%andb_true_iff [= Hhead Htail].
  rewrite (IH r' Hr Hr' Htail). f_equal.
  destruct (Ascii.eqb_spec c "."), (Ascii.eqb_spec c' "."); subst; try done.
Qed.

(** X17.  A tool name is the prefix followed by the full method name with
    every dot turned into an underscore: the part after the prefix has the
    length of the method name and no dot, and is the method name itself when
    that has no dot.  Two methods with the same prefix whose names hold no
    underscore get different tool names unless their names are the same. *)
Theorem tool_name_replaces_dots (m : MethodInfo) :
  exists suffix,
    MethodInfo_ToolName m = MI_Prefix m +:+ suffix
    /\ String.length suffix = String.length (MI_FullName m)
    /\ allBytes (fun c => negb (isByte 46 c)) suffix = true
    /\ (allBytes (fun c => negb (isByte 46 c)) (MI_FullName m) = true ->
        suffix = MI_FullName m)
    /\ (forall m' : MethodInfo,
          MI_Prefix m' = MI_Prefix m ->
          allBytes (fun c => negb (isByte 95 c)) (MI_FullName m) = true ->
          allBytes (fun c => negb (isByte 95 c)) (MI_FullName m') = true ->
          MethodInfo_ToolName m' = MethodInfo_ToolName m ->
          MI_FullName m' = MI_FullName m).
Proof.
  exists (ReplaceAll (MI_FullName m) "." "_"). split; [done|]. split; [|split; [|split]].
  - by rewrite ReplaceAll_byte, length_mapBytes.
  - rewrite ReplaceAll_byte. apply allBytes_mapBytes. intros c.
    destruct c as [[] [] [] [] [] [] [] []]; reflexivity.
  - intros Hplain. rewrite ReplaceAll_byte.
    apply (mapBytes_fixed _ _ _ Hplain). intros c.
    destruct c as [[] [] [] [] [] [] [] []]; vm_compute; congruence.
  - intros m' Hprefix Hm Hm'. unfold MethodInfo_ToolName. rewrite Hprefix.
    intros Heq%(inj (String.app (MI_Prefix m))). by apply replace_dot_injective.
Qed.

Lemma tool_name_replaces_dots_witness :
  exists suffix,
    MethodInfo_ToolName (mkMethodInfo "videos.list" (describedMethod "") "youtube_" "API")
      = "youtube_" +:+ suffix
    /\ String.length suffix = String.length "videos.list".
Proof.
  destruct (tool_name_replaces_dots
              (mkMethodInfo "videos.list" (describedMethod "") "youtube_" "API"))
    as (suffix & H1 & H2 & _).
  exists suffix. split; [exact H1|exact H2].
Defined.

(** ** Exported names *)

Lemma replaceFrom_allBytes (P : ascii -> bool) (old new : string) (skip : nat) (s : string) :
  allBytes P new = true -> allBytes P s = true ->
  allBytes P (replaceFrom old new skip s) = true.
Proof.
  intros Hnew. revert skip. induction s as [|c r IH]; intros skip; [done|].
  intros [Hc Hr]%andb_true_iff.
  change (replaceFrom old new skip (String c r)) with
    (match skip with
     | S k => replaceFrom old new k r
     | O => if String.prefix old (String c r)
            then new +:+ replaceFrom old new (Nat.pred (String.length old)) r
            else String c (replaceFrom old new O r)
     end).
  destruct skip as [|k]; [|by apply IH].
  destruct (String.prefix old (String c r)).
  - rewrite allBytes_app, Hnew. by apply IH.
  - simpl. rewrite Hc. by apply IH.
Qed.

Lemma spaceLen_zero_head (c : ascii) (r : string) :
  spaceLen (String c r) = O -> isSpace1 (byte c) = false.
Proof. unfold spaceLen. by destruct (isSpace1 (byte c)). Qed.

Lemma fieldsGo_allBytes (P : ascii -> bool) (cur : string) (skip : nat) (s : string) :
  allBytes (fun c => isSpace1 (byte c) || P c) s = true ->
  allBytes P cur = true ->
  Forall (fun w => allBytes P w = true) (fieldsGo cur skip s).
Proof.
  revert cur skip. induction s as [|c r IH]; intros cur skip Hs Hcur.
  - simpl. destruct cur; [constructor|]. repeat constructor. by rewrite allBytes_rev.
  - simpl in Hs. apply andb_true_iff in Hs as [Hc Hr].
    change (fieldsGo cur skip (String c r)) with
      (match skip with
       | S k => fieldsGo EmptyString k r
       | O => match spaceLen (String c r) with
              | O => fieldsGo (String c cur) O r
              | S k => match cur with
                       | EmptyString => []
                       | _ => [String.rev cur]
                       end ++ fieldsGo EmptyString k r
              end
       end).
    destruct skip as [|k]; [|by apply IH].
    destruct (spaceLen (String c r)) eqn:E.
    + apply IH; [done|]. simpl. rewrite Hcur, andb_true_r.
      apply spaceLen_zero_head in E. by rewrite E in Hc.
    + apply Forall_app. split; [|by apply IH].
      destruct cur; [constructor|]. repeat constructor. by rewrite allBytes_rev.
Qed.

Lemma toValidUTF8_allBytes (P : ascii -> bool) (keep : nat) (s : string) :
  allBytes P runeError = true -> allBytes P s = true ->
  allBytes P (toValidUTF8 keep s) = true.
Proof.
  intros Herr. revert keep. induction s as [|c r IH]; intros keep; [done|].
  intros [Hc Hr]%andb_true_iff.
  change (toValidUTF8 keep (String c r)) with
    (match keep with
     | S k => String c (toValidUTF8 k r)
     | O => match runeLen (String c r) with
            | O => runeError +:+ toValidUTF8 O r
            | S k => String c (toValidUTF8 k r)
            end
     end).
  destruct keep as [|k]; [|simpl; rewrite Hc; by apply IH].
  destruct (runeLen (String c r)).
  - rewrite allBytes_app, Herr. by apply IH.
  - simpl. rewrite Hc. by apply IH.
Qed.

Section ExportedNameBytes.
Variable P : ascii -> bool.
Hypothesis P_upper : forall c, P c = true -> P (upperByte c) = true.
Hypothesis P_error : allBytes P runeError = true.
Hypothesis P_acronyms : allBytes P "IDURLHTTPAPI" = true.

Lemma upperWord_allBytes (w : string) :
  allBytes P w = true -> allBytes P (upperWord w) = true.
Proof.
  destruct w as [|c r]; [done|]. simpl. intros [Hc Hr]%andb_true_iff.
  unfold ToUpper1. destruct (N.ltb (byte c) 128).
  - rewrite app_cons, app_nil_l. simpl. by rewrite P_upper, Hr.
  - by rewrite allBytes_app, P_error, Hr.
Qed.

Lemma upperFirstRune_allBytes (s : string) :
  allBytes P s = true -> allBytes P (upperFirstRune s) = true.
Proof.
  intros Hs. unfold upperFirstRune.
  pose proof (toValidUTF8_allBytes P O s P_error Hs) as Hv.
  destruct (toValidUTF8 0 s) as [|c r]; [done|]. simpl in *.
  apply andb_true_iff in Hv as [Hc Hr]. rewrite Hr, andb_true_r.
  destruct (N.ltb (byte c) 128); [by apply P_upper|done].
Qed.

Lemma exportedName_allBytes (s : string) :
  allBytes (fun c => isSpace1 (byte c) || isByte 95 c || isByte 45 c || P c) s = true ->
  allBytes P (exportedName s) = true.
Proof.
  intros Hs. unfold exportedName. destruct (s =s ""); [done|]. cbv zeta.
  assert (allBytes P (ReplaceAll (ReplaceAll (ReplaceAll (ReplaceAll
            (Join (upperWord <$> Fields (ReplaceAll (ReplaceAll s "_" " ") "-" " ")) "")
            "Id" "ID") "Url" "URL") "Http" "HTTP") "Api" "API") = true) as Hres.
  { apply andb_true_iff in P_acronyms as [HI [HD HURLHTTPAPI]%andb_true_iff].
    simpl in HURLHTTPAPI.
    repeat match type of HURLHTTPAPI with
      | (_ && _) = true =>
          let H := fresh "Hb" in apply andb_true_iff in HURLHTTPAPI as [H HURLHTTPAPI]
      end.
    unfold ReplaceAll at 1 2 3 4.
    repeat (apply replaceFrom_allBytes; [simpl; by rewrite ?HI, ?HD, ?Hb, ?Hb0, ?Hb1,
      ?Hb2, ?Hb3, ?Hb4, ?Hb5, ?Hb6, ?Hb7, ?Hb8|]).
    apply Join_allBytes; [done|]. apply Forall_fmap.
    eapply Forall_impl; [|intros w Hw; apply upperWord_allBytes, Hw].
    apply fieldsGo_allBytes; [|done].
    rewrite !ReplaceAll_byte, mapBytes_compose.
    clear -Hs. induction s as [|c r IH]; [done|]. simpl in Hs |- *.
    apply andb_true_iff in Hs as [Hc Hr]. rewrite (IH Hr), andb_true_r.
    revert Hc. destruct c as [[] [] [] [] [] [] [] []]; cbn; intros Hc;
      rewrite ?Hc, ?orb_true_r; done. }
  match goal with |- allBytes P (if ?b then _ else _) = true => destruct b end;
    [done|by apply upperFirstRune_allBytes].
Qed.
End ExportedNameBytes.

Lemma wordByte_upper (c : ascii) : wordByte c = true -> wordByte (upperByte c) = true.
Proof. destruct c as [[] [] [] [] [] [] [] []]; vm_compute; congruence. Qed.

Lemma segmentByte_upper (c : ascii) :
  segmentByte c = true -> segmentByte (upperByte c) = true.
Proof. destruct c as [[] [] [] [] [] [] [] []]; vm_compute; congruence. Qed.

(** X18.  An exported name holds no underscore, no hyphen and no ASCII white
    space, whatever the name it is made from; made from a name without dots
    it holds no dot either. *)
Theorem exported_name_has_no_separators (s : string) :
  allBytes wordByte (exportedName s) = true
  /\ (allBytes (fun c => negb (isByte 46 c)) s = true ->
      allBytes segmentByte (exportedName s) = true).
Proof.
  split.
  - apply exportedName_allBytes; [apply wordByte_upper|done|done|].
    clear. induction s as [|c r IH]; [done|]. simpl. rewrite IH, andb_true_r.
    unfold wordByte.
    by destruct (isSpace1 (byte c)), (isByte 95 c), (isByte 45 c).
  - intros Hs. apply exportedName_allBytes; [apply segmentByte_upper|done|done|].
    induction s as [|c r IH]; [done|]. simpl in Hs |- *.
    apply andb_true_iff in Hs as [Hc Hr]. rewrite (IH Hr), andb_true_r.
    unfold segmentByte, wordByte. rewrite Hc.
    by destruct (isSpace1 (byte c)), (isByte 95 c), (isByte 45 c).
Qed.

Lemma exported_name_has_no_separators_witness :
  allBytes segmentByte (exportedName "http_method") = true.
Proof.
  refine (proj2 (exported_name_has_no_separators "http_method") _). reflexivity.
Defined.

(** X19.  An exported name never starts with a lower-case ASCII letter: it
    is empty, which happens for the empty name, or its first byte is outside
    [a]..[z]. *)
Theorem exported_name_starts_upper (s : string) :
  exportedName "" = ""
  /\ (exportedName s = ""
      \/ exists c r, exportedName s = String c r
                     /\ inRange 97 122 (byte c) = false).
Proof.
  split; [done|]. unfold exportedName. destruct (s =s ""); [by left|]. cbv zeta.
  match goal with |- (if ?r =s "" then _ else _) = "" \/ _ =>
    destruct (String.eqb_spec r "") as [->|_]; [by left|generalize r] end.
  intros t. unfold upperFirstRune.
  destruct (toValidUTF8 0 t) as [|c r]; [by left|]. right.
  eexists _, _. split; [done|].
  destruct c as [[] [] [] [] [] [] [] []]; reflexivity.
Qed.

(** ** Struct names *)

Lemma splitGo_dot_allBytes (cur : string) (s : string) :
  allBytes (fun c => negb (isByte 46 c)) cur = true ->
  Forall (fun p => allBytes (fun c => negb (isByte 46 c)) p = true)
    (splitGo "." cur O s).
Proof.
  revert cur. induction s as [|c r IH]; intros cur Hcur.
  - simpl. repeat constructor. by rewrite allBytes_rev.
  - change (splitGo "." cur O (String c r)) with
      (if String.prefix "." (String c r)
       then String.rev cur :: splitGo "." EmptyString O r
       else splitGo "." (String c cur) O r).
    change (String.prefix "." (String c r)) with
      (match ascii_dec "."%char c with
       | left _ => String.prefix "" r
       | right _ => false
       end).
    destruct (ascii_dec "."%char c) as [<-|Hne].
    + assert (String.prefix "" r = true) as -> by (by destruct r).
      constructor; [by rewrite allBytes_rev|by apply IH].
    + apply IH. simpl. rewrite Hcur, andb_true_r.
      revert Hne. clear. destruct c as [[] [] [] [] [] [] [] []]; vm_compute; congruence.
Qed.

Lemma splitGo_dot_nonempty (cur s : string) : splitGo "." cur O s ≠ [].
Proof.
  revert cur. induction s as [|c r IH]; intros cur; [done|].
  change (splitGo "." cur O (String c r)) with
    (if String.prefix "." (String c r)
     then String.rev cur :: splitGo "." EmptyString O r
     else splitGo "." (String c cur) O r).
  destruct (String.prefix "." (String c r)); [done|apply IH].
Qed.

Lemma Join_cons (x : string) (l : list string) (sep : string) :
  l ≠ [] -> Join (x :: l) sep = x +:+ sep +:+ Join l sep.
Proof. by destruct l. Qed.

Lemma rev_cons (c : ascii) (s : string) :
  String.rev (String c s) = String.rev s +:+ String c "".
Proof. unfold String.rev. simpl. by rewrite rev_app_app. Qed.

Lemma Join_splitGo_dot (cur s : string) :
  Join (splitGo "." cur O s) "." = String.rev cur +:+ s.
Proof.
  revert cur. induction s as [|c r IH]; intros cur.
  - simpl. by rewrite app_nil_r.
  - change (splitGo "." cur O (String c r)) with
      (if String.prefix "." (String c r)
       then String.rev cur :: splitGo "." EmptyString O r
       else splitGo "." (String c cur) O r).
    change (String.prefix "." (String c r)) with
      (match ascii_dec "."%char c with
       | left _ => String.prefix "" r
       | right _ => false
       end).
    destruct (ascii_dec "."%char c) as [<-|Hne].
    + assert (String.prefix "" r = true) as -> by (by destruct r).
      rewrite Join_cons by apply splitGo_dot_nonempty.
      rewrite IH. reflexivity.
    + by rewrite IH, rev_cons, app_assoc, app_cons, app_nil_l.
Qed.

Lemma foldl_app_foldr (f : string -> string) (acc : string) (l : list string) :
  foldl (fun acc p => acc +:+ f p) acc l
  = acc +:+ foldr (fun p rest => f p +:+ rest) "" l.
Proof.
  revert acc. induction l as [|p l IH]; intros acc; simpl.
  - by rewrite app_nil_r.
  - by rewrite IH, app_assoc.
Qed.

Lemma foldr_exportedName_allBytes (pieces : list string) :
  Forall (fun p => allBytes (fun c => negb (isByte 46 c)) p = true) pieces ->
  allBytes segmentByte (foldr (fun p rest => exportedName p +:+ rest) "" pieces) = true.
Proof.
  induction 1 as [|p l Hp _ IH]; [done|]. simpl.
  rewrite allBytes_app, IH, andb_true_r.
  apply exportedName_allBytes; [apply segmentByte_upper|done|done|].
  clear -Hp. induction p as [|c r IHp]; [done|]. simpl in Hp |- *.
  apply andb_true_iff in Hp as [Hc Hr]. rewrite (IHp Hr), andb_true_r.
  unfold segmentByte, wordByte. rewrite Hc.
  by destruct (isSpace1 (byte c)), (isByte 95 c), (isByte 45 c).
Qed.

(** X20.  A struct name is the struct prefix, the exported names of the
    pieces of the method name between its dots, in their order, and [Args]:
    the pieces hold no dot and, joined by dots, give the method name back.
    The part between the prefix and [Args] holds no dot, no underscore, no
    hyphen and no ASCII white space. *)
Theorem struct_name_has_no_separators (m : MethodInfo) :
  exists pieces,
    pieces ≠ []
    /\ Join pieces "." = MI_FullName m
    /\ Forall (fun p => allBytes (fun c => negb (isByte 46 c)) p = true) pieces
    /\ MethodInfo_StructName m
       = (MI_StructPrefix m
          +:+ foldr (fun p rest => exportedName p +:+ rest) "" pieces) +:+ "Args"
    /\ allBytes segmentByte
         (foldr (fun p rest => exportedName p +:+ rest) "" pieces) = true.
Proof.
  pose proof (splitGo_dot_allBytes "" (MI_FullName m) eq_refl) as Hparts.
  exists (Split (MI_FullName m) "."). unfold Split.
  split; [apply splitGo_dot_nonempty|].
  split; [by rewrite Join_splitGo_dot|].
  split; [done|].
  split; [|by apply foldr_exportedName_allBytes].
  unfold MethodInfo_StructName, Split. by rewrite foldl_app_foldr, app_nil_l.
Qed.

Lemma SortedMethodNames_lists_the_keys_witness :
  "videos.list" ∈ SortedMethodNames videosDocument.
Proof.
  refine (proj2 (proj1 (proj2 (proj2 (SortedMethodNames_lists_the_keys videosDocument)))
                   "videos.list") _).
  by eexists.
Defined.

Lemma generation_succeeds_iff_witness :
  failure (GenerateMCPTools renderNothing formatNothing videosDocument defaultOptions)
  = None.
Proof.
  refine (proj2 (generation_succeeds_iff renderNothing formatNothing videosDocument
                   defaultOptions) _).
  eexists _, "", "". repeat split; reflexivity.
Defined.
